(** * The greenfield executor: client pool, health monitor, retrying height
      query, validator cache and light-block builder.

    Shallow embedding of [executor/executor.go].  Every remote call is
    replaced by the answer the node gives (an oracle argument), every
    effect on a collaborator (RPC channel, logger, alert sink, retry
    delay) is recorded as an [Event] in a trace, and a Go run-time panic
    is an explicit result.  The exclusive lock the monitor loop takes
    around its store to [clientIdx] is recorded in the trace too; the
    shared lock of the getters brackets a single read and is not.  The
    RPC channels, the signing key and the codec of the [Executor] struct
    carry no data the properties below depend on and are left out of the
    records. *)

From Stdlib Require Import ZArith List String Ascii Bool Lia.
From Stdlib Require Import Strings.Byte.
Import ListNotations.
Local Open Scope string_scope.
Local Open Scope list_scope.
Local Open Scope Z_scope.

(** ** Base types *)

(** A Go [error] value, identified with the text of [err.Error()]. *)
Definition error := string.

(** A point of the wall clock ([time.Time]), in nanoseconds. *)
Definition time := Z.

(** [uint64]: a natural number below [U64]; addition wraps around, and
    the conversion [uint64(x)] of an [int64] keeps the low 64 bits. *)
Definition U64 : N := 2 ^ 64.
Definition u64_add (a b : N) : N := ((a + b) mod U64)%N.
Definition u64_of_int64 (z : Z) : N := Z.to_N (z mod Z.of_N U64).

(** [int64]: the other conversion, [int64(x)] of a [uint64], reads the
    low 64 bits as a signed number. *)
Definition I64 : Z := 2 ^ 63.
Definition int64_of_u64 (h : N) : Z :=
  let z := Z.of_N (h mod U64) in
  if z <? I64 then z else z - Z.of_N U64.

(** What a Go function of result type [(T, error)] does: it returns a
    value with a nil error, returns an error, or panics. *)
Inductive outcome (A : Type) : Type :=
| Ok (a : A)
| Err (e : error)
| Panic.
Arguments Ok {A} a.
Arguments Err {A} e.
Arguments Panic {A}.

(** A Go result [(T, error)] of a function that does not panic. *)
Definition result (A : Type) : Type := (error + A)%type.

(** The answer of one remote call: the RPC client returns either a nil
    pointer with an error, or a result with a nil error. *)
Definition rpc (A : Type) : Type := result A.

(** The two components of the pair the client returns. *)
Definition ptr_of {A} (r : rpc A) : option A :=
  match r with inl _ => None | inr a => Some a end.
Definition err_of {A} (r : rpc A) : option error :=
  match r with inl err => Some err | inr _ => None end.

(** ** Effects *)

Inductive Event : Type :=
| RpcStatus (provider : string)     (* client.Status *)
| RpcValidators (provider : string) (height : option Z)
                                    (* client.Validators; None: latest *)
| RpcCommit (provider : string) (height : Z) (* client.Commit *)
| LogInfo (msg : string)            (* logging.Logger.Infof *)
| LogError (msg : string)           (* logging.Logger.Error / Errorf *)
| LogRetry (attempt : nat)          (* the OnRetry callback's Infof line *)
| Delay                             (* the pause between two attempts *)
| SendTelegramMessage (msg : string) (* the alert sink *)
| MutexLock                         (* e.mutex.Lock *)
| StoreClientIdx (idx : Z)          (* e.clientIdx = idx *)
| MutexUnlock.                      (* e.mutex.Unlock *)

(** Computations that write to the trace. *)
Definition M (A : Type) : Type := (A * list Event)%type.

Definition ret {A} (a : A) : M A := (a, []).
Definition bind {A B} (m : M A) (f : A -> M B) : M B :=
  let (a, t1) := m in let (b, t2) := f a in (b, t1 ++ t2).
Definition emit (ev : Event) : M unit := (tt, [ev]).
Definition trace {A} (m : M A) : list Event := snd m.
Definition value {A} (m : M A) : A := fst m.

Notation "x <- m ;; k" := (bind m (fun x => k))
  (at level 61, m at next level, right associativity).
Notation "m ;;; k" := (bind m (fun _ => k))
  (at level 61, right associativity).

Definition is_status (ev : Event) : bool :=
  match ev with RpcStatus _ => true | _ => false end.
Definition is_retry_log (ev : Event) : bool :=
  match ev with LogRetry _ => true | _ => false end.
Definition is_validators (ev : Event) : bool :=
  match ev with RpcValidators _ _ => true | _ => false end.
Definition is_alert (ev : Event) : bool :=
  match ev with SendTelegramMessage _ => true | _ => false end.
Definition is_delay (ev : Event) : bool :=
  match ev with Delay => true | _ => false end.

Definition count (p : Event -> bool) (t : list Event) : nat :=
  List.length (filter p t).


(** An event that neither touches the lock nor stores to [clientIdx]. *)
Definition is_plain (ev : Event) : bool :=
  match ev with
  | MutexLock | MutexUnlock | StoreClientIdx _ => false
  | _ => true
  end.

(** A trace with nothing sent to the alert sink. *)
Definition quiet (t : list Event) : Prop :=
  forall msg, ~ In (SendTelegramMessage msg) t.

(** ** Retry wrapper *)

Section Retry.

(** [common.RtyAttem]: the configured number of attempts.  It is
    declared in the [common] package, outside [executor.go]; the number
    is a parameter here. *)
Variable RtyAttNum : nat.

Section Do.
Context {St : Type}.
(** The retried closure: its [n]-th call (from 0) on the captured
    variables [s]. *)
Variable retryableFunc : nat -> St -> M (St * option error).
Variable onRetry : nat -> error -> M unit.

(** Modelled from the spec: [retry.Do] of the retry library, whose code
    is outside [executor.go].  "Execute it up to a fixed maximum attempt
    count with a fixed inter-attempt delay; on each failed attempt,
    invoke a logging callback with the attempt number and the
    configured maximum; return the last error if all attempts fail,
    otherwise return the first successful result."  [k] attempts are
    left and [n] were made; there is no pause after the last one.  A
    budget of 0 makes no attempt; the properties below are about budgets
    of at least one attempt. *)
Fixpoint Do_from (k n : nat) (s : St) : M (St * option error) :=
  match k with
  | O => ret (s, None)
  | S k' =>
      r <- retryableFunc n s ;;
      match r with
      | (s', None) => ret (s', None)
      | (s', Some err) =>
          onRetry n err ;;;
          match k' with
          | O => ret (s', Some err)
          | S _ => emit Delay ;;; Do_from k' (S n) s'
          end
      end
  end.

Definition Do : St -> M (St * option error) := Do_from RtyAttNum 0%nat.
End Do.

(** [getLatestBlockHeight]: one [Status] call on [client] (named by its
    provider); the node's answer is the latest block height, an
    [int64], converted to [uint64]. *)
Definition getLatestBlockHeight (client : string) (answer : rpc Z)
  : M (N * option error) :=
  emit (RpcStatus client) ;;;
  match answer with
  | inl err => ret (0%N, Some err)
  | inr latestBlockHeight => ret (u64_of_int64 latestBlockHeight, None)
  end.

(** [getLatestBlockHeightWithRetry].  [status n] is the node's answer to
    the [n]-th [Status] call of this invocation (a timeout of the
    per-attempt context is one of the errors).  The closure assigns the
    named result [latestHeight] on every attempt; the [return] statement
    reads it once [retry.Do] is back, which is the order the Go compiler
    gives the operands. *)
Definition getLatestBlockHeightWithRetry (client : string)
    (status : nat -> rpc Z) : M (N * option error) :=
  let latestHeight := 0%N in
  Do (fun n (_ : N) => getLatestBlockHeight client (status n))
     (fun n _ => emit (LogRetry (S n)))
     latestHeight.

End Retry.

(** ** Data model *)

(** [ExecutorClient]: one node's handle.  [Height] is a [uint64]. *)
Record ExecutorClient : Type := {
  Provider : string;
  Height : N;
  UpdatedAt : time
}.

(** [tmtypes.Validator], with the fields read here. *)
Record Validator : Type := {
  Address : list byte;
  VotingPower : Z;
  RelayerBlsKey : list byte
}.

(** [*tmtypes.Validator]: the slices hold pointers, and a pointer can be
    nil ([None]). *)
Definition ValidatorPtr : Type := option Validator.

(** [Executor]: [clientIdx] is a Go [int]; [greenfieldClients] is the
    slice of handles; [validators] is the cache (nil at construction). *)
Record Executor : Type := {
  clientIdx : Z;
  greenfieldClients : list ExecutorClient;
  address : string;
  validators : list ValidatorPtr
}.

(** [s[i]] on a slice: [None] stands for the index-out-of-range panic. *)
Definition index {A} (s : list A) (i : Z) : option A :=
  if (0 <=? i) && (i <? Z.of_nat (List.length s))
  then nth_error s (Z.to_nat i) else None.

Definition valid_index (e : Executor) : Prop :=
  0 <= clientIdx e < Z.of_nat (List.length (greenfieldClients e)).

(** ** Construction *)

(** What construction reads from the configuration and from the outside:
    the two address lists, the address derived from the configured key
    ([None]: [getGreenfieldPrivateKey] panics), whether a channel can be
    built for an address ([grpcConn] and [NewRpcClient] panic otherwise)
    and the clock. *)
Record Config : Type := {
  RPCAddrs : list string;
  GRPCAddrs : list string;
  key_address : option string;
  grpc_dial : string -> bool;
  rpc_dial : string -> bool;
  now : nat -> time
}.

(** [initGreenfieldClients], from position [i] on: [rest] is
    [rpcAddrs[i:]]. *)
Fixpoint initGreenfieldClients_from (cfg : Config) (i : nat)
    (rest : list string) : outcome (list ExecutorClient) :=
  match rest with
  | [] => Ok []
  | rpcAddr :: rest' =>
      match nth_error (GRPCAddrs cfg) i with
      | None => Panic
      | Some grpcAddr =>
          if grpc_dial cfg grpcAddr && rpc_dial cfg rpcAddr then
            match initGreenfieldClients_from cfg (S i) rest' with
            | Ok cs => Ok ({| Provider := rpcAddr; Height := 0%N;
                              UpdatedAt := now cfg i |} :: cs)
            | other => other
            end
          else Panic
      end
  end.

Definition initGreenfieldClients (cfg : Config) : outcome (list ExecutorClient) :=
  initGreenfieldClients_from cfg 0 (RPCAddrs cfg).

Definition NewGreenfieldExecutor (cfg : Config) : outcome Executor :=
  match key_address cfg with
  | None => Panic
  | Some addr =>
      match initGreenfieldClients cfg with
      | Ok cs => Ok {| clientIdx := 0; greenfieldClients := cs;
                       address := addr; validators := [] |}
      | Err e => Err e
      | Panic => Panic
      end
  end.

(** ** Health monitor loop *)

Definition Second : Z := 1000000000.

(** What the outside gives while one handle is visited in a tick: the
    clock when its staleness is checked, the node's answers to the
    [Status] calls, and the clock when its metadata is written. *)
Record Probe : Type := {
  now_check : time;
  status : nat -> rpc Z;
  now_update : time
}.

Section Monitor.

Variable RtyAttNum : nat.
(** Constants of the [executor] package declared outside
    [executor.go]: the block-count margin (used at type [uint64]) and
    the deny-service threshold in seconds. *)
Variable FallBehindThreshold : N.
Variable DataSeedDenyServiceThreshold : Z.

(** [time.Since(t).Seconds() > DataSeedDenyServiceThreshold], on exact
    nanoseconds. *)
Definition deny_service (now_ updatedAt : time) : bool :=
  DataSeedDenyServiceThreshold * Second <? now_ - updatedAt.

Definition not_accessable (c : ExecutorClient) : string :=
  ("data seed " ++ Provider c ++ " is not accessable")%string.

Definition height_error (err : error) : string :=
  ("get latest block height error, err=" ++ err)%string.

(** The body of the [range] loop for one handle.  The call that would
    reach the alert sink is commented out in the source: only the log
    line is produced. *)
Definition poll (p : Probe) (c : ExecutorClient) : M ExecutorClient :=
  (if deny_service (now_check p) (UpdatedAt c)
   then emit (LogError (not_accessable c)) else ret tt) ;;;
  r <- getLatestBlockHeightWithRetry RtyAttNum (Provider c) (status p) ;;
  match r with
  | (_, Some err) => emit (LogError (height_error err)) ;;; ret c
  | (height, None) =>
      ret {| Provider := Provider c; Height := height;
             UpdatedAt := now_update p |}
  end.

(** The [range] loop over the handles, from position [i] on. *)
Fixpoint collect (env : nat -> Probe) (i : nat) (cs : list ExecutorClient)
  : M (list ExecutorClient) :=
  match cs with
  | [] => ret []
  | c :: cs' =>
      c' <- poll (env i) c ;;
      cs'' <- collect env (S i) cs' ;;
      ret (c' :: cs'')
  end.

(** The search loop: [idx] is the position of the head of [cs]. *)
Fixpoint highest_from (cs : list ExecutorClient) (idx : Z)
    (highestHeight : N) (highestIdx : Z) : N * Z :=
  match cs with
  | [] => (highestHeight, highestIdx)
  | c :: cs' =>
      if (highestHeight <? Height c)%N
      then highest_from cs' (idx + 1) (Height c) idx
      else highest_from cs' (idx + 1) highestHeight highestIdx
  end.

Definition highest (cs : list ExecutorClient) : N * Z :=
  highest_from cs 0 0%N 0.

(** The test that makes the pool switch. *)
Definition fall_behind (active : ExecutorClient) (highestHeight : N) : bool :=
  (u64_add (Height active) FallBehindThreshold <? highestHeight)%N.

(** The decision of a tick: the value of [clientIdx] after it. *)
Definition decide (cs : list ExecutorClient) (idx : Z) : outcome Z :=
  let (highestHeight, highestIdx) := highest cs in
  match index cs idx with
  | None => Panic
  | Some active =>
      if fall_behind active highestHeight then Ok highestIdx else Ok idx
  end.

(** The same lines with what they do to the lock: when the active
    handle has fallen behind, the store to [clientIdx] is made between
    [e.mutex.Lock()] and [e.mutex.Unlock()]. *)
Definition switch (cs : list ExecutorClient) (idx : Z) : M (outcome Z) :=
  let (highestHeight, highestIdx) := highest cs in
  match index cs idx with
  | None => ret Panic
  | Some active =>
      if fall_behind active highestHeight
      then emit MutexLock ;;;
           emit (StoreClientIdx highestIdx) ;;;
           emit MutexUnlock ;;;
           ret (Ok highestIdx)
      else ret (Ok idx)
  end.

(** One tick of [UpdateClientLoop]. *)
Definition UpdateClientLoop_tick (env : nat -> Probe) (e : Executor)
  : M (outcome Executor) :=
  emit (LogInfo "start to monitor greenfield data-seeds healthy") ;;;
  cs <- collect env 0 (greenfieldClients e) ;;
  r <- switch cs (clientIdx e) ;;
  match r with
  | Ok idx => ret (Ok {| clientIdx := idx; greenfieldClients := cs;
                         address := address e;
                         validators := validators e |})
  | Err err => ret (Err err)
  | Panic => ret Panic
  end.

(** [UpdateClientLoop] over the ticks whose outside is listed in
    [envs]; a panic ends the loop. *)
Fixpoint UpdateClientLoop (envs : list (nat -> Probe)) (e : Executor)
  : M (outcome Executor) :=
  match envs with
  | [] => ret (Ok e)
  | env :: envs' =>
      r <- UpdateClientLoop_tick env e ;;
      match r with
      | Ok e' => UpdateClientLoop envs' e'
      | other => ret other
      end
  end.

End Monitor.

(** [GetLatestBlockHeightWithRetry]: the retried height query on the
    channel of the active handle. *)
Definition GetLatestBlockHeightWithRetry (RtyAttNum : nat)
    (answers : nat -> rpc Z) (e : Executor) : M (outcome N) :=
  match option_map Provider (index (greenfieldClients e) (clientIdx e)) with
  | None => ret Panic
  | Some client =>
      r <- getLatestBlockHeightWithRetry RtyAttNum client answers ;;
      match r with
      | (_, Some err) => ret (Err err)
      | (latestHeight, None) => ret (Ok latestHeight)
      end
  end.

(** ** Validator cache *)

(** [ctypes.ResultValidators]. *)
Record ResultValidators : Type := {
  BlockHeight : Z;
  Validators : list ValidatorPtr
}.

(** [getRpcClient]: the channel of the active handle, named by its
    provider; [None] is the index-out-of-range panic. *)
Definition getRpcClient (e : Executor) : option string :=
  option_map Provider (index (greenfieldClients e) (clientIdx e)).

(** [queryLatestValidators]; [answer] is what the node replies. *)
Definition queryLatestValidators (answer : rpc ResultValidators)
    (e : Executor) : M (outcome (list ValidatorPtr)) :=
  match getRpcClient e with
  | None => ret Panic
  | Some client =>
      emit (RpcValidators client None) ;;;
      match answer with
      | inl err => ret (Err err)
      | inr validators_ => ret (Ok (Validators validators_))
      end
  end.

(** [QueryValidatorsAtHeight]. *)
Definition QueryValidatorsAtHeight (height : N)
    (answer : rpc ResultValidators) (e : Executor)
  : M (outcome (list ValidatorPtr)) :=
  let atHeight := int64_of_u64 height in
  match getRpcClient e with
  | None => ret Panic
  | Some client =>
      emit (RpcValidators client (Some atHeight)) ;;;
      match answer with
      | inl err => ret (Err err)
      | inr validators_ => ret (Ok (Validators validators_))
      end
  end.

(** [QueryCachedLatestValidators]: the result and the executor after the
    call. *)
Definition QueryCachedLatestValidators (answer : rpc ResultValidators)
    (e : Executor) : M (outcome (list ValidatorPtr) * Executor) :=
  if negb (Nat.eqb (List.length (validators e)) 0)
  then ret (Ok (validators e), e)
  else
    r <- queryLatestValidators answer e ;;
    match r with
    | Ok validators_ => ret (Ok validators_, e)
    | Err err => ret (Err err, e)
    | Panic => ret (Panic, e)
    end.

Definition refresh_error (err : error) : string :=
  ("update latest greenfield validators error, err=" ++ err)%string.

(** One tick of [UpdateCachedLatestValidatorsLoop]. *)
Definition UpdateCachedLatestValidatorsLoop_tick
    (answer : rpc ResultValidators) (e : Executor) : M (outcome Executor) :=
  r <- queryLatestValidators answer e ;;
  match r with
  | Err err => emit (LogError (refresh_error err)) ;;; ret (Ok e)
  | Ok validators_ =>
      ret (Ok {| clientIdx := clientIdx e;
                 greenfieldClients := greenfieldClients e;
                 address := address e;
                 validators := validators_ |})
  | Panic => ret Panic
  end.

(** ** BLS keys *)

Definition hextable : string := "0123456789abcdef".

Definition hex_digit (n : N) : ascii :=
  match String.get (N.to_nat n) hextable with
  | Some c => c
  | None => "0"%char
  end.

(** [hex.EncodeToString]: two digits per byte, high nibble first. *)
Fixpoint EncodeToString (src : list byte) : string :=
  match src with
  | [] => EmptyString
  | v :: rest =>
      String (hex_digit (N.shiftr (Byte.to_N v) 4))
        (String (hex_digit (N.land (Byte.to_N v) 15))
           (EncodeToString rest))
  end.

(** One turn of the [range] loop: [v.RelayerBlsKey] dereferences the
    pointer, which panics when it is nil. *)
Definition append_key (keys : outcome (list string)) (v : ValidatorPtr)
  : outcome (list string) :=
  match keys with
  | Ok ks =>
      match v with
      | Some val => Ok (ks ++ [EncodeToString (RelayerBlsKey val)])
      | None => Panic
      end
  | other => other
  end.

(** The [range] loop that appends one key per validator. *)
Definition append_keys (vs : list ValidatorPtr) : outcome (list string) :=
  fold_left append_key vs (Ok []).

(** [GetValidatorsBlsPublicKey]. *)
Definition GetValidatorsBlsPublicKey (answer : rpc ResultValidators)
    (e : Executor) : M (outcome (list string) * Executor) :=
  r <- QueryCachedLatestValidators answer e ;;
  match r with
  | (Ok validators_, e') => ret (append_keys validators_, e')
  | (Err err, e') => ret (Err err, e')
  | (Panic, e') => ret (Panic, e')
  end.

(** ** Light block builder *)

Section LightBlock.

(** Types and functions of the consensus library: the signed header
    carried by a commit result, the validator set, the wire record and
    its encoders.
    [NewValidatorSet] panics on a list it rejects ([None]). *)
Variables SignedHeader ValidatorSet LightBlockProto : Type.
Variable NewValidatorSet : list ValidatorPtr -> option ValidatorSet.
Variable ToProto : SignedHeader -> ValidatorSet -> result LightBlockProto.
Variable Marshal : LightBlockProto -> result (list byte).

(** [QueryTendermintLightBlock].  The error of the [Validators] call is
    overwritten by the one of the [Commit] call before it is looked at;
    [validators.Validators] then dereferences whatever pointer the
    first call gave.  Each of the two calls resolves the active handle
    through [getRpcClient] when it is made: [e] is the executor at the
    first call and [e'] the executor at the second, which is [e] unless
    the monitor loop has run in between. *)
Definition QueryTendermintLightBlock (height : Z)
    (answerV : rpc ResultValidators) (answerC : rpc SignedHeader)
    (e e' : Executor) : M (outcome (list byte)) :=
  match getRpcClient e with
  | None => ret Panic
  | Some client =>
      emit (RpcValidators client (Some height)) ;;;
      let validators_ := ptr_of answerV in
      match getRpcClient e' with
      | None => ret Panic
      | Some client' =>
          emit (RpcCommit client' height) ;;;
          let commit := ptr_of answerC in
          let err := err_of answerC in
          match err with
          | Some err' => ret (Err err')
          | None =>
              match validators_ with
              | None => ret Panic
              | Some rv =>
                  match NewValidatorSet (Validators rv) with
                  | None => ret Panic
                  | Some validatorSet =>
                      match commit with
                      | None => ret Panic
                      | Some signedHeader =>
                          match ToProto signedHeader validatorSet with
                          | inl err' => ret (Err err')
                          | inr protoBlock =>
                              match Marshal protoBlock with
                              | inl err' => ret (Err err')
                              | inr bz => ret (Ok bz)
                              end
                          end
                      end
                  end
              end
          end
      end
  end.

End LightBlock.

Arguments QueryTendermintLightBlock {SignedHeader ValidatorSet LightBlockProto}
  NewValidatorSet ToProto Marshal height answerV answerC e e'.

(** ** The states the running executor goes through *)

Section Reachability.

Variable RtyAttNum : nat.
Variable FallBehindThreshold : N.
Variable DataSeedDenyServiceThreshold : Z.

Let tick := UpdateClientLoop_tick RtyAttNum FallBehindThreshold
              DataSeedDenyServiceThreshold.

(** One move of the executor: a tick of the monitor loop, a tick of the
    validator refresh loop, or an on-demand read of the validators. *)
Inductive step : Executor -> Executor -> Prop :=
| step_monitor : forall env e e',
    value (tick env e) = Ok e' -> step e e'
| step_refresh : forall answer e e',
    value (UpdateCachedLatestValidatorsLoop_tick answer e) = Ok e' ->
    step e e'
| step_read : forall answer e r e',
    value (QueryCachedLatestValidators answer e) = (r, e') ->
    step e e'.

(** The states reachable from the construction out of [cfg]. *)
Inductive reachable (cfg : Config) : Executor -> Prop :=
| reach_new : forall e,
    NewGreenfieldExecutor cfg = Ok e -> reachable cfg e
| reach_step : forall e e',
    reachable cfg e -> step e e' -> reachable cfg e'.

(** The same, as long as no tick of the refresh loop has succeeded. *)
Inductive unrefreshed (cfg : Config) : Executor -> Prop :=
| unref_new : forall e,
    NewGreenfieldExecutor cfg = Ok e -> unrefreshed cfg e
| unref_monitor : forall env e e',
    unrefreshed cfg e -> value (tick env e) = Ok e' ->
    unrefreshed cfg e'
| unref_failed : forall err e e',
    unrefreshed cfg e ->
    value (UpdateCachedLatestValidatorsLoop_tick (inl err) e) = Ok e' ->
    unrefreshed cfg e'
| unref_read : forall answer e r e',
    unrefreshed cfg e ->
    value (QueryCachedLatestValidators answer e) = (r, e') ->
    unrefreshed cfg e'.

End Reachability.

(** The cache after a run of refresh ticks with the listed answers: the
    validators of the last answer that is not an error. *)
Fixpoint last_success (answers : list (rpc ResultValidators))
    (cached : list ValidatorPtr) : list ValidatorPtr :=
  match answers with
  | [] => cached
  | inl _ :: rest => last_success rest cached
  | inr rv :: rest => last_success rest (Validators rv)
  end.

(** The refresh loop over the ticks whose answers are listed. *)
Fixpoint UpdateCachedLatestValidatorsLoop
    (answers : list (rpc ResultValidators)) (e : Executor)
  : M (outcome Executor) :=
  match answers with
  | [] => ret (Ok e)
  | answer :: rest =>
      r <- UpdateCachedLatestValidatorsLoop_tick answer e ;;
      match r with
      | Ok e' => UpdateCachedLatestValidatorsLoop rest e'
      | other => ret other
      end
  end.

(** ** Sample data *)

Definition handle (p : string) (h : N) (t : time) : ExecutorClient :=
  {| Provider := p; Height := h; UpdatedAt := t |}.

Definition pool (idx : Z) (cs : list ExecutorClient) : Executor :=
  {| clientIdx := idx; greenfieldClients := cs;
     address := "0x00"; validators := [] |}.

(** A node that answers every [Status] call with height [h]. *)
Definition answering (h : Z) : Probe :=
  {| now_check := 10 * Second; status := fun _ => inr h;
     now_update := 11 * Second |}.

(** A node that answers no call, visited at time [t]. *)
Definition silent (t : time) : Probe :=
  {| now_check := t; status := fun _ => inl "timeout"; now_update := t |}.

Definition config (rpcAddrs grpcAddrs : list string) : Config :=
  {| RPCAddrs := rpcAddrs; GRPCAddrs := grpcAddrs;
     key_address := Some "0x00";
     grpc_dial := fun _ => true; rpc_dial := fun _ => true;
     now := fun _ => 0 |}.

(** Two nodes, the first at height 100 and the second at 106. *)
Definition nodes_100_106 (i : nat) : Probe :=
  match i with O => answering 100 | _ => answering 106 end.

(** Two nodes, the first silent and the second at height 7. *)
Definition nodes_silent_7 (i : nat) : Probe :=
  match i with O => silent (100 * Second) | _ => answering 7 end.

Definition two_handles : list ExecutorClient :=
  [handle "rpc0" 0 0; handle "rpc1" 0 0].

Definition validator (addr key : list byte) : Validator :=
  {| Address := addr; VotingPower := 1; RelayerBlsKey := key |}.

(** An executor over [two_handles] whose cache holds [vs]. *)
Definition cached (vs : list ValidatorPtr) : Executor :=
  {| clientIdx := 0; greenfieldClients := two_handles;
     address := "0x00"; validators := vs |}.

Definition two_validators : list ValidatorPtr :=
  [Some (validator [x01] [xde; xad]); Some (validator [x02] [xbe; xef])].

(** The value of a hexadecimal digit, and the byte two digits spell:
    the inverse of the two digits [EncodeToString] writes for a byte. *)
Definition unhex (c : ascii) : N :=
  let n := N_of_ascii c in
  if (48 <=? n)%N && (n <=? 57)%N then (n - 48)%N
  else if (97 <=? n)%N && (n <=? 102)%N then (n - 87)%N
  else 0%N.

Definition byte_of_digits (hi lo : ascii) : option byte :=
  Byte.of_N (16 * unhex hi + unhex lo).

(** * Properties *)

(** ** Traces *)

Lemma count_app (p : Event -> bool) (t1 t2 : list Event) :
  count p (t1 ++ t2) = (count p t1 + count p t2)%nat.
Proof.
  unfold count. rewrite filter_app. apply List.length_app.
Qed.

Lemma trace_bind {A B} (m : M A) (f : A -> M B) :
  trace (bind m f) = trace m ++ trace (f (value m)).
Proof.
  destruct m as [a t1]. unfold bind, trace, value. simpl.
  destruct (f a). reflexivity.
Qed.

Lemma value_bind {A B} (m : M A) (f : A -> M B) :
  value (bind m f) = value (f (value m)).
Proof.
  destruct m as [a t1]. unfold bind, value. simpl.
  destruct (f a). reflexivity.
Qed.

(** Push [value] and [trace] through the binds of a computation. *)
Ltac msimpl :=
  repeat first
    [ rewrite value_bind
    | rewrite trace_bind
    | progress cbn [value trace ret emit fst snd] ].

(** ** Retry wrapper *)

Lemma Do_from_S {St : Type} (f : nat -> St -> M (St * option error))
    (g : nat -> error -> M unit) (k n : nat) (s : St) :
  Do_from f g (S k) n s =
  r <- f n s ;;
  match r with
  | (s', None) => ret (s', None)
  | (s', Some err) =>
      g n err ;;;
      match k with
      | O => ret (s', Some err)
      | S _ => emit Delay ;;; Do_from f g k (S n) s'
      end
  end.
Proof. reflexivity. Qed.

Section RetryFacts.

Variable RtyAttNum : nat.
Variable client : string.
Variable status : nat -> rpc Z.

Let attempt := fun n (_ : N) => getLatestBlockHeight client (status n).
Let onRetry := fun (n : nat) (_ : error) => emit (LogRetry (S n)).

(** [j] failures from attempt [n] on, then a success, within [k]
    attempts. *)
Lemma Do_from_succeeds (j : nat) :
  forall k n s v,
    (j < k)%nat ->
    (forall i, (i < j)%nat -> exists err, status (n + i)%nat = inl err) ->
    status (n + j)%nat = inr v ->
    value (Do_from attempt onRetry k n s) = (u64_of_int64 v, None) /\
    count is_status (trace (Do_from attempt onRetry k n s)) = S j /\
    count is_retry_log (trace (Do_from attempt onRetry k n s)) = j.
Proof.
  induction j as [|j IH]; intros k n s v Hk Hfail Hok.
  - destruct k as [|k]; [lia|].
    rewrite Nat.add_0_r in Hok.
    simpl. unfold attempt at 1 3 5, getLatestBlockHeight. rewrite Hok.
    cbn. auto.
  - destruct k as [|k]; [lia|].
    destruct (Hfail 0%nat) as [err Herr]; [lia|].
    rewrite Nat.add_0_r in Herr.
    destruct k as [|k]; [lia|].
    destruct (IH (S k) (S n) 0%N v) as (Hv & Hs & Hr).
    + lia.
    + intros i Hi. destruct (Hfail (S i)) as [e He]; [lia|].
      exists e. rewrite <- He. f_equal. lia.
    + rewrite <- Hok. f_equal. lia.
    + change (Do_from attempt onRetry (S (S k)) n s)
        with (r <- attempt n s ;;
              match r with
              | (s', None) => ret (s', None)
              | (s', Some err) =>
                  onRetry n err ;;; emit Delay ;;;
                  Do_from attempt onRetry (S k) (S n) s'
              end).
      unfold attempt at 1 3 5, getLatestBlockHeight. rewrite Herr.
      msimpl. rewrite !count_app, Hv, Hs, Hr. cbn. auto.
Qed.

(** Every one of [S k] attempts from attempt [n] on fails. *)
Lemma Do_from_exhausts (k : nat) :
  forall n s last,
    (forall i, (i < k)%nat -> exists err, status (n + i)%nat = inl err) ->
    status (n + k)%nat = inl last ->
    value (Do_from attempt onRetry (S k) n s) = (0%N, Some last) /\
    count is_status (trace (Do_from attempt onRetry (S k) n s)) = S k /\
    count is_retry_log (trace (Do_from attempt onRetry (S k) n s)) = S k.
Proof.
  induction k as [|k IH]; intros n s last Hfail Hlast.
  - rewrite Nat.add_0_r in Hlast.
    simpl. unfold attempt, getLatestBlockHeight. rewrite Hlast.
    cbn. auto.
  - destruct (Hfail 0%nat) as [err Herr]; [lia|].
    rewrite Nat.add_0_r in Herr.
    destruct (IH (S n) 0%N last) as (Hv & Hs & Hr).
    + intros i Hi. destruct (Hfail (S i)) as [e He]; [lia|].
      exists e. rewrite <- He. f_equal. lia.
    + rewrite <- Hlast. f_equal. lia.
    + change (Do_from attempt onRetry (S (S k)) n s)
        with (r <- attempt n s ;;
              match r with
              | (s', None) => ret (s', None)
              | (s', Some err) =>
                  onRetry n err ;;; emit Delay ;;;
                  Do_from attempt onRetry (S k) (S n) s'
              end).
      unfold attempt at 1 3 5, getLatestBlockHeight. rewrite Herr.
      msimpl. rewrite !count_app, Hv, Hs, Hr. cbn. auto.
Qed.

End RetryFacts.

(** C6.  An operation that fails on its first [N - 1] attempts, [N] at
    most the configured maximum: if attempt [N] succeeds, the wrapper
    returns its value, the retry callback has run exactly [N - 1] times
    and [N] attempts were made; if [N] is the maximum and attempt [N]
    fails too, the wrapper returns that last error after exactly the
    maximum number of attempts. *)
Theorem getLatestBlockHeightWithRetry_attempts
    (RtyAttNum : nat) (client : string) (status : nat -> rpc Z) (N : nat) :
  (1 <= N <= RtyAttNum)%nat ->
  (forall i, (i < N - 1)%nat -> exists err, status i = inl err) ->
  let r := getLatestBlockHeightWithRetry RtyAttNum client status in
  (forall v, status (N - 1)%nat = inr v ->
     value r = (u64_of_int64 v, None) /\
     count is_retry_log (trace r) = (N - 1)%nat /\
     count is_status (trace r) = N) /\
  (forall last, N = RtyAttNum -> status (N - 1)%nat = inl last ->
     value r = (0%N, Some last) /\
     count is_status (trace r) = RtyAttNum).
Proof.
  intros HN Hfail r. subst r. unfold getLatestBlockHeightWithRetry, Do.
  split.
  - intros v Hv.
    destruct (Do_from_succeeds client status (N - 1) RtyAttNum 0 0%N v)
      as (H1 & H2 & H3); try (simpl; assumption); [lia|].
    repeat split; [exact H1 | exact H3 | rewrite H2; lia].
  - intros last -> Hlast.
    destruct RtyAttNum as [|k]; [lia|].
    replace (S k - 1)%nat with k in * by lia.
    destruct (Do_from_exhausts client status k 0 0%N last)
      as (H1 & H2 & _); try (simpl; assumption).
    split; assumption.
Qed.

(** A node that times out twice and then reports height 42, under a
    budget of five attempts; and a node that never answers. *)
Lemma getLatestBlockHeightWithRetry_attempts_witness :
  (value (getLatestBlockHeightWithRetry 5 "node0"
            (fun i => if (i <? 2)%nat then inl "timeout" else inr 42))
   = (42%N, None)) /\
  (value (getLatestBlockHeightWithRetry 5 "node0" (fun _ => inl "timeout"))
   = (0%N, Some "timeout")).
Proof.
  split.
  - refine (proj1 (proj1 (getLatestBlockHeightWithRetry_attempts 5 "node0"
             (fun i => if (i <? 2)%nat then inl "timeout" else inr 42) 3
             _ _) 42 _)).
    + lia.
    + intros i Hi. exists "timeout".
      destruct i as [|[|i]]; [reflexivity | reflexivity | simpl in Hi; lia].
    + reflexivity.
  - refine (proj1 (proj2 (getLatestBlockHeightWithRetry_attempts 5 "node0"
             (fun _ => inl "timeout") 5 _ _) "timeout" _ _)).
    + lia.
    + intros i _. exists "timeout". reflexivity.
    + reflexivity.
    + reflexivity.
Defined.

(** ** Health monitor loop: collecting the heights *)

Create HintDb quiet.

Section CollectFacts.

Variable RtyAttNum : nat.
Variable DataSeedDenyServiceThreshold : Z.

Let visit := poll RtyAttNum DataSeedDenyServiceThreshold.
Let gather := collect RtyAttNum DataSeedDenyServiceThreshold.
Let query (p : Probe) (c : ExecutorClient) :=
  getLatestBlockHeightWithRetry RtyAttNum (Provider c) (status p).

Lemma quiet_app (t1 t2 : list Event) :
  quiet t1 -> quiet t2 -> quiet (t1 ++ t2).
Proof.
  intros H1 H2 msg Hin. apply in_app_or in Hin.
  destruct Hin as [Hin|Hin]; [exact (H1 msg Hin) | exact (H2 msg Hin)].
Qed.

Lemma quiet_nil : quiet [].
Proof. intros msg []. Qed.

Lemma quiet_one (ev : Event) : is_alert ev = false -> quiet [ev].
Proof.
  intros Hev msg [Heq|[]]. subst ev. discriminate.
Qed.

Hint Resolve quiet_app quiet_nil quiet_one : quiet.

Lemma Do_from_quiet (client : string) (answers : nat -> rpc Z) (k : nat) :
  forall n s,
    quiet (trace (Do_from
                    (fun n (_ : N) => getLatestBlockHeight client (answers n))
                    (fun n _ => emit (LogRetry (S n))) k n s)).
Proof.
  induction k as [|k IH]; intros n s.
  - apply quiet_nil.
  - rewrite Do_from_S, trace_bind. unfold getLatestBlockHeight.
    destruct (answers n) as [err|h]; msimpl.
    + destruct k as [|k]; msimpl;
        repeat apply quiet_app; auto with quiet.
    + repeat apply quiet_app; auto with quiet.
Qed.

Lemma poll_quiet (p : Probe) (c : ExecutorClient) :
  quiet (trace (visit p c)).
Proof.
  unfold visit, poll. msimpl.
  apply quiet_app.
  - destruct (deny_service _ _ _); cbn; auto with quiet.
  - apply quiet_app.
    + apply Do_from_quiet.
    + destruct (value _) as [h [err|]]; msimpl; auto 10 with quiet.
Qed.

Lemma collect_quiet (env : nat -> Probe) (cs : list ExecutorClient) :
  forall i, quiet (trace (gather env i cs)).
Proof.
  induction cs as [|c cs IH]; intros i.
  - apply quiet_nil.
  - unfold gather in *. simpl. msimpl.
    repeat apply quiet_app; auto with quiet. apply poll_quiet.
Qed.

(** A failed query leaves the handle as it was and logs the error. *)
Lemma poll_failed (p : Probe) (c : ExecutorClient) (h : N) (err : error) :
  value (query p c) = (h, Some err) ->
  value (visit p c) = c /\
  In (LogError (height_error err)) (trace (visit p c)).
Proof.
  intros Hq. unfold visit, poll. msimpl.
  fold (query p c). rewrite Hq. msimpl. split; [reflexivity|].
  apply in_or_app. right. apply in_or_app. right. left. reflexivity.
Qed.

(** A successful query writes the height and the time of the update. *)
Lemma poll_succeeded (p : Probe) (c : ExecutorClient) (h : N) :
  value (query p c) = (h, None) ->
  value (visit p c) =
    {| Provider := Provider c; Height := h; UpdatedAt := now_update p |}.
Proof.
  intros Hq. unfold visit, poll. msimpl.
  fold (query p c). rewrite Hq. reflexivity.
Qed.

(** A handle found stale gets its line in the error log. *)
Lemma poll_stale (p : Probe) (c : ExecutorClient) :
  deny_service DataSeedDenyServiceThreshold (now_check p) (UpdatedAt c)
    = true ->
  In (LogError (not_accessable c)) (trace (visit p c)).
Proof.
  intros Hs. unfold visit, poll. msimpl. rewrite Hs.
  apply in_or_app. left. left. reflexivity.
Qed.

Lemma collect_length (env : nat -> Probe) (cs : list ExecutorClient) :
  forall i, List.length (value (gather env i cs)) = List.length cs.
Proof.
  induction cs as [|c cs IH]; intros i; [reflexivity|].
  unfold gather in *. simpl. msimpl. simpl. now rewrite IH.
Qed.

(** The handle at position [k] after the loop is the one that was
    there, polled with the probe of its position. *)
Lemma collect_nth (env : nat -> Probe) (cs : list ExecutorClient) :
  forall i k,
    nth_error (value (gather env i cs)) k =
    option_map (fun c => value (visit (env (i + k)%nat) c)) (nth_error cs k).
Proof.
  induction cs as [|c cs IH]; intros i k.
  - destruct k; reflexivity.
  - unfold gather in *. simpl. msimpl. destruct k as [|k]; simpl.
    + now rewrite Nat.add_0_r.
    + rewrite IH. now rewrite Nat.add_succ_r.
Qed.

(** Whatever a visit writes to the trace is in the trace of the loop. *)
Lemma collect_trace (env : nat -> Probe) (cs : list ExecutorClient) :
  forall i k c ev,
    nth_error cs k = Some c ->
    In ev (trace (visit (env (i + k)%nat) c)) ->
    In ev (trace (gather env i cs)).
Proof.
  induction cs as [|c0 cs IH]; intros i k c ev Hk Hev.
  - destruct k; discriminate.
  - unfold gather in *. simpl. msimpl. destruct k as [|k]; simpl in Hk.
    + injection Hk as ->. rewrite Nat.add_0_r in Hev.
      apply in_or_app. now left.
    + apply in_or_app. right. apply in_or_app. left.
      apply (IH (S i) k c ev Hk). now rewrite Nat.add_succ_r in Hev.
Qed.

End CollectFacts.

(** ** Health monitor loop: the decision *)

Lemma index_Some {A} (s : list A) (i : Z) (a : A) :
  index s i = Some a <->
  0 <= i < Z.of_nat (List.length s) /\ nth_error s (Z.to_nat i) = Some a.
Proof.
  unfold index. split.
  - destruct (0 <=? i) eqn:H0; [|discriminate].
    destruct (i <? Z.of_nat (List.length s)) eqn:H1; [|discriminate].
    simpl. intros H. split; [lia | exact H].
  - intros [[H0 H1] H].
    apply Z.leb_le in H0. apply Z.ltb_lt in H1. now rewrite H0, H1.
Qed.

Lemma index_nat {A} (s : list A) (k : nat) (a : A) :
  nth_error s k = Some a -> index s (Z.of_nat k) = Some a.
Proof.
  intros H. apply index_Some. split.
  - assert (k < List.length s)%nat by (apply nth_error_Some; congruence). lia.
  - now rewrite Nat2Z.id.
Qed.

Lemma index_valid {A} (s : list A) (i : Z) :
  0 <= i < Z.of_nat (List.length s) -> exists a, index s i = Some a.
Proof.
  intros Hi.
  destruct (nth_error s (Z.to_nat i)) as [a|] eqn:H.
  - exists a. apply index_Some. auto.
  - apply nth_error_None in H. lia.
Qed.

(** What the search loop returns, started at position [idx] with the
    running maximum [h0] found at [i0]: either nothing beats [h0], or the
    answer is the first position holding the largest height. *)
Lemma highest_from_spec (cs : list ExecutorClient) :
  forall idx h0 i0 hh hi,
    highest_from cs idx h0 i0 = (hh, hi) ->
    (forall c, In c cs -> (Height c <= hh)%N) /\
    ((hh = h0 /\ hi = i0) \/
     (exists k c,
        nth_error cs k = Some c /\ hi = idx + Z.of_nat k /\
        Height c = hh /\ (h0 < hh)%N /\
        forall j c', (j < k)%nat -> nth_error cs j = Some c' ->
                     (Height c' < hh)%N)).
Proof.
  induction cs as [|c cs IH]; intros idx h0 i0 hh hi H; simpl in H.
  - injection H as <- <-. split; [intros c []|]. left. auto.
  - destruct (h0 <? Height c)%N eqn:Hlt.
    + apply N.ltb_lt in Hlt.
      destruct (IH _ _ _ _ _ H) as [Hmax [[-> ->] | (k & c' & Hk & -> & Hc & Hgt & Hfirst)]].
      * split.
        { intros c' [<-|Hin]; [lia | auto]. }
        right. exists 0%nat, c. repeat split; auto; lia.
      * split.
        { intros c'' [<-|Hin]; [lia | auto]. }
        right. exists (S k), c'. repeat split; auto; try lia.
        intros [|j] c'' Hj Hnth; simpl in Hnth.
        -- injection Hnth as <-. lia.
        -- apply (Hfirst j); [lia | exact Hnth].
    + apply N.ltb_ge in Hlt.
      destruct (IH _ _ _ _ _ H) as [Hmax [[-> ->] | (k & c' & Hk & -> & Hc & Hgt & Hfirst)]].
      * split.
        { intros c' [<-|Hin]; [lia | auto]. }
        left. auto.
      * split.
        { intros c'' [<-|Hin]; [lia | auto]. }
        right. exists (S k), c'. repeat split; auto; try lia.
        intros [|j] c'' Hj Hnth; simpl in Hnth.
        -- injection Hnth as <-. lia.
        -- apply (Hfirst j); [lia | exact Hnth].
Qed.

(** On a pool that is not empty, [highest] returns the largest height
    and the first position that holds it. *)
Lemma highest_spec (cs : list ExecutorClient) :
  cs <> [] ->
  exists top,
    index cs (snd (highest cs)) = Some top /\
    Height top = fst (highest cs) /\
    (forall c, In c cs -> (Height c <= Height top)%N) /\
    (forall j c, 0 <= j < snd (highest cs) -> index cs j = Some c ->
                 (Height c < Height top)%N).
Proof.
  intros Hne. unfold highest.
  destruct (highest_from cs 0 0%N 0) as [hh hi] eqn:H. simpl.
  destruct (highest_from_spec _ _ _ _ _ _ H)
    as [Hmax [[-> ->] | (k & c & Hk & -> & Hc & Hgt & Hfirst)]].
  - destruct cs as [|c0 cs]; [congruence|].
    exists c0. assert (Height c0 = 0%N) as H0.
    { specialize (Hmax c0 (or_introl eq_refl)). lia. }
    rewrite H0. repeat split; auto. intros j c Hj. lia.
  - exists c. rewrite Hc. repeat split; auto.
    + rewrite Z.add_0_l. now apply index_nat.
    + intros j c' Hj Hidx. apply index_Some in Hidx.
      destruct Hidx as [_ Hnth].
      apply (Hfirst (Z.to_nat j)); [lia | exact Hnth].
Qed.

Lemma u64_add_small (a b : N) :
  (a + b < U64)%N -> u64_add a b = (a + b)%N.
Proof. intros H. unfold u64_add. now apply N.mod_small. Qed.

Section DecideFacts.

Variable FallBehindThreshold : N.

(** The decision never fails on a valid index, and its result is a
    valid index: either the old one or the first position of the
    largest height. *)
Lemma decide_valid (cs : list ExecutorClient) (idx : Z) :
  0 <= idx < Z.of_nat (List.length cs) ->
  exists active idx',
    index cs idx = Some active /\
    decide FallBehindThreshold cs idx = Ok idx' /\
    idx' = (if fall_behind FallBehindThreshold active (fst (highest cs))
            then snd (highest cs) else idx) /\
    0 <= idx' < Z.of_nat (List.length cs).
Proof.
  intros Hidx. destruct (index_valid cs idx Hidx) as [active Hact].
  assert (cs <> []) as Hne by (intros ->; simpl in Hidx; lia).
  destruct (highest_spec cs Hne) as (top & Htop & _).
  apply index_Some in Htop. destruct Htop as [Hhi _].
  unfold decide. destruct (highest cs) as [hh hi]. simpl in *.
  rewrite Hact. exists active.
  destruct (fall_behind FallBehindThreshold active hh); eauto.
Qed.

Lemma decide_invalid (cs : list ExecutorClient) (idx : Z) :
  ~ 0 <= idx < Z.of_nat (List.length cs) ->
  decide FallBehindThreshold cs idx = Panic.
Proof.
  intros Hidx. unfold decide. destruct (highest cs) as [hh hi].
  destruct (index cs idx) as [a|] eqn:H; [|reflexivity].
  apply index_Some in H. tauto.
Qed.

(** The decision with its effects returns what [decide] says. *)
Lemma switch_value (cs : list ExecutorClient) (idx : Z) :
  value (switch FallBehindThreshold cs idx)
  = decide FallBehindThreshold cs idx.
Proof.
  unfold switch, decide. destruct (highest cs) as [hh hi].
  destruct (index cs idx) as [active|]; [|reflexivity].
  destruct (fall_behind FallBehindThreshold active hh); reflexivity.
Qed.

(** Its trace: nothing, or the store between lock and unlock. *)
Lemma switch_trace (cs : list ExecutorClient) (idx : Z) :
  trace (switch FallBehindThreshold cs idx) = [] \/
  exists active,
    index cs idx = Some active /\
    fall_behind FallBehindThreshold active (fst (highest cs)) = true /\
    trace (switch FallBehindThreshold cs idx)
    = [MutexLock; StoreClientIdx (snd (highest cs)); MutexUnlock].
Proof.
  unfold switch. destruct (highest cs) as [hh hi]. simpl.
  destruct (index cs idx) as [active|]; [|now left].
  destruct (fall_behind FallBehindThreshold active hh) eqn:Hfb; [|now left].
  right. exists active. auto.
Qed.

End DecideFacts.

Section TickFacts.

Variable RtyAttNum : nat.
Variable FallBehindThreshold : N.
Variable DataSeedDenyServiceThreshold : Z.

Let tick := UpdateClientLoop_tick RtyAttNum FallBehindThreshold
              DataSeedDenyServiceThreshold.
Let gather := collect RtyAttNum DataSeedDenyServiceThreshold.

Lemma tick_value (env : nat -> Probe) (e : Executor) :
  value (tick env e) =
  match decide FallBehindThreshold
          (value (gather env 0%nat (greenfieldClients e))) (clientIdx e) with
  | Ok idx => Ok {| clientIdx := idx;
                    greenfieldClients :=
                      value (gather env 0%nat (greenfieldClients e));
                    address := address e;
                    validators := validators e |}
  | Err err => Err err
  | Panic => Panic
  end.
Proof.
  unfold tick, UpdateClientLoop_tick. msimpl. fold gather.
  rewrite switch_value. destruct (decide _ _ _); reflexivity.
Qed.

Lemma tick_trace (env : nat -> Probe) (e : Executor) (ev : Event) :
  In ev (trace (gather env 0%nat (greenfieldClients e))) ->
  In ev (trace (tick env e)).
Proof.
  intros H. unfold tick, UpdateClientLoop_tick. msimpl. fold gather.
  apply in_or_app. right. apply in_or_app. now left.
Qed.

Lemma tick_quiet (env : nat -> Probe) (e : Executor) :
  quiet (trace (tick env e)).
Proof.
  unfold tick, UpdateClientLoop_tick. msimpl.
  apply (quiet_app [_]); [now apply quiet_one|].
  apply quiet_app; [apply collect_quiet|].
  apply quiet_app.
  - destruct (switch_trace FallBehindThreshold
                (value (collect RtyAttNum DataSeedDenyServiceThreshold env
                          0%nat (greenfieldClients e))) (clientIdx e))
      as [-> | (active & _ & _ & ->)]; [apply quiet_nil|].
    intros msg [H|[H|[H|[]]]]; discriminate.
  - destruct (value (switch _ _ _)); apply quiet_nil.
Qed.

(** A tick from a valid index ends normally, in a state with the same
    number of handles and a valid index. *)
Lemma tick_valid (env : nat -> Probe) (e : Executor) :
  valid_index e ->
  exists e',
    value (tick env e) = Ok e' /\
    greenfieldClients e' = value (gather env 0%nat (greenfieldClients e)) /\
    validators e' = validators e /\
    valid_index e'.
Proof.
  intros Hv. rewrite tick_value.
  destruct (decide_valid FallBehindThreshold
              (value (gather env 0%nat (greenfieldClients e))) (clientIdx e))
    as (active & idx' & _ & Hd & _ & Hr).
  { unfold gather. rewrite collect_length. exact Hv. }
  rewrite Hd. eexists. split; [reflexivity|].
  split; [reflexivity|]. split; [reflexivity|]. exact Hr.
Qed.

End TickFacts.

(** ** Claims on the health monitor loop *)

(** C3.  In a tick from a valid index, after the heights are collected,
    [highest] gives the largest height and a position that holds it, and
    the active index becomes that position when the active height plus
    the threshold (a [uint64] sum; the integer sum whenever that is below
    2^64) is strictly below the largest height, and stays as it is
    otherwise.  With heights 100 and 100 + threshold - 1 the pool does
    not switch; with 100 and 100 + threshold + 1 it switches to the
    second handle. *)
Theorem UpdateClientLoop_switch_rule
    (RtyAttNum : nat) (FallBehindThreshold : N)
    (DataSeedDenyServiceThreshold : Z)
    (env : nat -> Probe) (e : Executor) :
  valid_index e ->
  (FallBehindThreshold + 101 < U64)%N ->
  let cs := value (collect RtyAttNum DataSeedDenyServiceThreshold env 0%nat
                     (greenfieldClients e)) in
  let highestHeight := fst (highest cs) in
  let highestIdx := snd (highest cs) in
  (exists active top e',
      index cs (clientIdx e) = Some active /\
      index cs highestIdx = Some top /\
      Height top = highestHeight /\
      (forall c, In c cs -> (Height c <= highestHeight)%N) /\
      value (UpdateClientLoop_tick RtyAttNum FallBehindThreshold
               DataSeedDenyServiceThreshold env e) = Ok e' /\
      ((u64_add (Height active) FallBehindThreshold < highestHeight)%N ->
       clientIdx e' = highestIdx) /\
      (~ (u64_add (Height active) FallBehindThreshold < highestHeight)%N ->
       clientIdx e' = clientIdx e) /\
      ((Height active + FallBehindThreshold < U64)%N ->
       u64_add (Height active) FallBehindThreshold
       = (Height active + FallBehindThreshold)%N)) /\
  (forall a b,
      Height a = 100%N ->
      (Height b = (100 + FallBehindThreshold - 1)%N ->
       decide FallBehindThreshold [a; b] 0 = Ok 0) /\
      (Height b = (100 + FallBehindThreshold + 1)%N ->
       decide FallBehindThreshold [a; b] 0 = Ok 1)).
Proof.
  intros Hv HT cs highestHeight highestIdx. split.
  - destruct (tick_valid RtyAttNum FallBehindThreshold
                DataSeedDenyServiceThreshold env e Hv)
      as (e' & He' & Hcs & _ & _).
    assert (0 <= clientIdx e < Z.of_nat (List.length cs)) as Hidx.
    { subst cs. rewrite collect_length. exact Hv. }
    destruct (decide_valid FallBehindThreshold cs (clientIdx e) Hidx)
      as (active & idx' & Hact & Hd & Hidx' & _).
    assert (cs <> []) as Hne by (intros Heq; rewrite Heq in Hidx; simpl in Hidx; lia).
    destruct (highest_spec cs Hne) as (top & Htop & Hh & Hmax & _).
    exists active, top, e'.
    assert (clientIdx e' = idx') as Hc.
    { rewrite tick_value in He'. fold cs in He'. rewrite Hd in He'.
      injection He' as <-. reflexivity. }
    repeat split; auto.
    + intros c Hin. fold highestHeight in Hh. rewrite <- Hh. auto.
    + intros Hlt. rewrite Hc, Hidx'. unfold fall_behind.
      apply N.ltb_lt in Hlt. fold highestHeight. now rewrite Hlt.
    + intros Hge. rewrite Hc, Hidx'. unfold fall_behind.
      fold highestHeight.
      destruct (N.ltb_spec (u64_add (Height active) FallBehindThreshold)
                  highestHeight); [contradiction | reflexivity].
    + apply u64_add_small.
  - intros a b Ha.
    assert (index [a; b] 0 = Some a) as I0 by reflexivity.
    unfold decide, highest, fall_behind. cbn [highest_from].
    rewrite I0, Ha. change (0 <? 100)%N with true. cbv iota.
    rewrite u64_add_small by lia.
    split; intros Hb; rewrite Hb.
    + destruct (N.ltb_spec 100 (100 + FallBehindThreshold - 1)); cbv iota beta;
        match goal with
        | |- context [(?x <? ?y)%N] => destruct (N.ltb_spec x y)
        end; try reflexivity; lia.
    + destruct (N.ltb_spec 100 (100 + FallBehindThreshold + 1)); cbv iota beta;
        match goal with
        | |- context [(?x <? ?y)%N] => destruct (N.ltb_spec x y)
        end; try reflexivity; lia.
Qed.

Lemma UpdateClientLoop_switch_rule_witness :
  exists e',
    value (UpdateClientLoop_tick 5 5 60 nodes_100_106 (pool 0 two_handles))
    = Ok e' /\ clientIdx e' = 1.
Proof.
  destruct (UpdateClientLoop_switch_rule 5 5 60 nodes_100_106
              (pool 0 two_handles))
    as [(active & top & e' & Hact & _ & _ & _ & He' & Hsw & _) _].
  - unfold valid_index. simpl. lia.
  - reflexivity.
  - exists e'. split; [exact He'|].
    assert (Some (handle "rpc0" 100 (11 * Second)) = Some active) as Heq
      by exact Hact.
    assert (Height active = 100%N) as Hh
      by (injection Heq as <-; reflexivity).
    rewrite (Hsw ltac:(rewrite Hh; vm_compute; reflexivity)).
    vm_compute. reflexivity.
Defined.

(** C5.  Whenever some handle holds the largest height of the pool, the
    position [highest] returns is the lowest one holding that height:
    every handle before it is strictly lower, so of several handles at
    the largest height the first wins.  With two handles at height 200
    and the first one active, the decision keeps the first. *)
Theorem highest_first_of_ties (FallBehindThreshold : N) :
  (forall cs i ci,
      index cs i = Some ci ->
      (forall c, In c cs -> (Height c <= Height ci)%N) ->
      exists top,
        index cs (snd (highest cs)) = Some top /\
        Height top = Height ci /\
        fst (highest cs) = Height ci /\
        snd (highest cs) <= i /\
        forall j c, 0 <= j < snd (highest cs) -> index cs j = Some c ->
                    (Height c < Height ci)%N) /\
  (forall a b,
      Height a = 200%N -> Height b = 200%N ->
      snd (highest [a; b]) = 0 /\
      decide FallBehindThreshold [a; b] 0 = Ok 0).
Proof.
  split.
  - intros cs i ci Hi Hmax.
    assert (cs <> []) as Hne.
    { intros ->. apply index_Some in Hi. simpl in Hi. lia. }
    destruct (highest_spec cs Hne) as (top & Htop & Hh & Hall & Hfirst).
    assert (In ci cs) as Hci.
    { apply index_Some in Hi. destruct Hi as [_ Hi].
      eapply nth_error_In; eauto. }
    assert (In top cs) as Htc.
    { apply index_Some in Htop. destruct Htop as [_ Htop].
      eapply nth_error_In; eauto. }
    assert (Height top = Height ci) as Heq.
    { specialize (Hall _ Hci). specialize (Hmax _ Htc). lia. }
    exists top. rewrite <- Heq. repeat split; auto.
    destruct (Z_le_gt_dec (snd (highest cs)) i) as [Hle|Hgt]; [exact Hle|].
    assert (0 <= i) by (apply index_Some in Hi; lia).
    specialize (Hfirst i ci (conj H (Z.gt_lt _ _ Hgt)) Hi). lia.
  - intros a b Ha Hb.
    assert (index [a; b] 0 = Some a) as I0 by reflexivity.
    unfold decide, highest. cbn [highest_from]. rewrite Ha, Hb.
    change (0 <? 200)%N with true. cbv iota.
    change (200 <? 200)%N with false. cbv iota. rewrite I0.
    split; [reflexivity|].
    destruct (fall_behind FallBehindThreshold a 200); reflexivity.
Qed.

Lemma highest_first_of_ties_witness :
  snd (highest [handle "A" 200 0; handle "B" 200 0]) <= 1 /\
  decide 5 [handle "A" 200 0; handle "B" 200 0] 0 = Ok 0.
Proof.
  split.
  - destruct (proj1 (highest_first_of_ties 5)
                [handle "A" 200 0; handle "B" 200 0] 1 (handle "B" 200 0))
      as (top & _ & _ & _ & Hle & _).
    + reflexivity.
    + intros c [<-|[<-|[]]]; simpl; lia.
    + exact Hle.
  - apply (proj2 (highest_first_of_ties 5)); reflexivity.
Defined.

Section LoopFacts.

Variable RtyAttNum : nat.
Variable FallBehindThreshold : N.
Variable DataSeedDenyServiceThreshold : Z.

Let tick := UpdateClientLoop_tick RtyAttNum FallBehindThreshold
              DataSeedDenyServiceThreshold.
Let loop := UpdateClientLoop RtyAttNum FallBehindThreshold
              DataSeedDenyServiceThreshold.

(** From a valid index the loop goes through every tick it is given. *)
Lemma UpdateClientLoop_runs (envs : list (nat -> Probe)) :
  forall e, valid_index e ->
            exists e', value (loop envs e) = Ok e' /\ valid_index e'.
Proof.
  induction envs as [|env envs IH]; intros e Hv.
  - exists e. split; [reflexivity | exact Hv].
  - destruct (tick_valid RtyAttNum FallBehindThreshold
                DataSeedDenyServiceThreshold env e Hv)
      as (e1 & He1 & _ & _ & Hv1).
    destruct (IH e1 Hv1) as (e2 & He2 & Hv2).
    exists e2. split; [|exact Hv2].
    unfold loop. simpl. msimpl. rewrite He1. exact He2.
Qed.


End LoopFacts.

(** C7.  In a tick from a valid index: a handle whose height query ends
    in an error (as it does when every attempt of the budget fails) is
    left exactly as it was and the error is logged; a handle whose query
    succeeds gets the new height and time, whatever happened to the
    others; the tick ends normally, and so does any number of ticks. *)
Theorem UpdateClientLoop_failed_query_frame
    (RtyAttNum : nat) (FallBehindThreshold : N)
    (DataSeedDenyServiceThreshold : Z)
    (env : nat -> Probe) (e : Executor) :
  valid_index e ->
  (exists e',
      value (UpdateClientLoop_tick RtyAttNum FallBehindThreshold
               DataSeedDenyServiceThreshold env e) = Ok e' /\
      List.length (greenfieldClients e')
      = List.length (greenfieldClients e) /\
      forall i c,
        nth_error (greenfieldClients e) i = Some c ->
        let q := value (getLatestBlockHeightWithRetry RtyAttNum (Provider c)
                          (status (env i))) in
        ((0 < RtyAttNum)%nat ->
         (forall k, (k < RtyAttNum)%nat ->
                    exists err, status (env i) k = inl err) ->
         exists err, snd q = Some err) /\
        (forall err,
            snd q = Some err ->
            nth_error (greenfieldClients e') i = Some c /\
            In (LogError (height_error err))
               (trace (UpdateClientLoop_tick RtyAttNum FallBehindThreshold
                         DataSeedDenyServiceThreshold env e))) /\
        (snd q = None ->
         nth_error (greenfieldClients e') i =
         Some {| Provider := Provider c; Height := fst q;
                 UpdatedAt := now_update (env i) |})) /\
  (forall envs,
      exists e'',
        value (UpdateClientLoop RtyAttNum FallBehindThreshold
                 DataSeedDenyServiceThreshold envs e) = Ok e'').
Proof.
  intros Hv. split.
  - destruct (tick_valid RtyAttNum FallBehindThreshold
                DataSeedDenyServiceThreshold env e Hv)
      as (e' & He' & Hcs & _ & _).
    exists e'. split; [exact He'|]. split.
    { rewrite Hcs. apply collect_length. }
    intros i c Hc. cbv zeta. rewrite Hcs, collect_nth, Hc. simpl.
    destruct (value (getLatestBlockHeightWithRetry RtyAttNum (Provider c)
                       (status (env i)))) as [h o] eqn:Hq.
    simpl. repeat split.
    + intros Hpos Hfail.
      destruct RtyAttNum as [|k]; [lia|].
      destruct (Hfail k) as [last Hlast]; [lia|].
      destruct (Do_from_exhausts (Provider c) (status (env i)) k 0 0%N last)
        as (Hval & _).
      * intros j Hj. apply Hfail. simpl. lia.
      * exact Hlast.
      * unfold getLatestBlockHeightWithRetry, Do in Hq.
        rewrite Hval in Hq. injection Hq as _ <-. eauto.
    + subst o. f_equal.
      now destruct (poll_failed RtyAttNum DataSeedDenyServiceThreshold
                      (env i) c h err Hq).
    + subst o. apply tick_trace.
      apply (collect_trace RtyAttNum DataSeedDenyServiceThreshold
               env _ 0%nat i c _ Hc).
      now destruct (poll_failed RtyAttNum DataSeedDenyServiceThreshold
                      (env i) c h err Hq).
    + intros ->. f_equal.
      apply (poll_succeeded RtyAttNum DataSeedDenyServiceThreshold
               (env i) c h Hq).
  - intros envs.
    destruct (UpdateClientLoop_runs RtyAttNum FallBehindThreshold
                DataSeedDenyServiceThreshold envs e Hv) as (e'' & H & _).
    now exists e''.
Qed.

Lemma UpdateClientLoop_failed_query_frame_witness :
  exists e',
    value (UpdateClientLoop_tick 5 5 60 nodes_silent_7 (pool 0 two_handles))
    = Ok e' /\
    nth_error (greenfieldClients e') 0 = Some (handle "rpc0" 0 0) /\
    nth_error (greenfieldClients e') 1 = Some (handle "rpc1" 7 (11 * Second)).
Proof.
  destruct (UpdateClientLoop_failed_query_frame 5 5 60 nodes_silent_7
              (pool 0 two_handles))
    as [(e' & He' & _ & Hframe) _].
  - unfold valid_index. simpl. lia.
  - exists e'. split; [exact He'|]. split.
    + destruct (Hframe 0%nat (handle "rpc0" 0 0) eq_refl) as (_ & Hfail & _).
      assert (snd (value (getLatestBlockHeightWithRetry 5 "rpc0"
                            (status (nodes_silent_7 0%nat))))
              = Some "timeout") as Hq by (vm_compute; reflexivity).
      destruct (Hfail "timeout" Hq) as [Hsame _]. exact Hsame.
    + destruct (Hframe 1%nat (handle "rpc1" 0 0) eq_refl) as (_ & _ & Hok).
      rewrite Hok by (vm_compute; reflexivity). vm_compute. reflexivity.
Defined.

(** C2, as the code has it.  In a tick, every handle whose [UpdatedAt]
    is older than the deny-service threshold when it is visited gets an
    error line naming its provider in the log, and nothing is sent to
    the alert sink. *)
Theorem UpdateClientLoop_stale_logged
    (RtyAttNum : nat) (FallBehindThreshold : N)
    (DataSeedDenyServiceThreshold : Z)
    (env : nat -> Probe) (e : Executor) (i : nat) (c : ExecutorClient) :
  nth_error (greenfieldClients e) i = Some c ->
  deny_service DataSeedDenyServiceThreshold (now_check (env i)) (UpdatedAt c)
  = true ->
  In (LogError (not_accessable c))
     (trace (UpdateClientLoop_tick RtyAttNum FallBehindThreshold
               DataSeedDenyServiceThreshold env e)) /\
  quiet (trace (UpdateClientLoop_tick RtyAttNum FallBehindThreshold
                  DataSeedDenyServiceThreshold env e)).
Proof.
  intros Hc Hstale. split; [|apply tick_quiet].
  apply tick_trace.
  apply (collect_trace RtyAttNum DataSeedDenyServiceThreshold
           env _ 0%nat i c _ Hc).
  now apply poll_stale.
Qed.

Lemma UpdateClientLoop_stale_logged_witness :
  In (LogError "data seed rpc0 is not accessable")
     (trace (UpdateClientLoop_tick 5 5 60 nodes_silent_7
               (pool 0 two_handles))).
Proof.
  apply (UpdateClientLoop_stale_logged 5 5 60 nodes_silent_7
           (pool 0 two_handles) 0 (handle "rpc0" 0 0)).
  - reflexivity.
  - reflexivity.
Defined.

(** C2, as stated, fails: the handle "rpc0", last updated at time 0, is
    visited 100 seconds later under a threshold of 60 seconds, and the
    tick sends nothing to the alert sink. *)
Lemma UpdateClientLoop_stale_no_alert :
  nth_error (greenfieldClients (pool 0 two_handles)) 0
  = Some (handle "rpc0" 0 0) /\
  deny_service 60 (now_check (nodes_silent_7 0%nat))
    (UpdatedAt (handle "rpc0" 0 0)) = true /\
  ~ exists msg,
      In (SendTelegramMessage msg)
         (trace (UpdateClientLoop_tick 5 5 60 nodes_silent_7
                   (pool 0 two_handles))).
Proof.
  split; [reflexivity|]. split; [reflexivity|].
  intros [msg Hin]. vm_compute in Hin.
  repeat (destruct Hin as [Hin|Hin]; [discriminate|]). exact Hin.
Qed.

(** ** Construction and the reachable states *)

Lemma initGreenfieldClients_from_length (cfg : Config) (rest : list string) :
  forall i cs,
    initGreenfieldClients_from cfg i rest = Ok cs ->
    List.length cs = List.length rest.
Proof.
  induction rest as [|a rest IH]; intros i cs H; simpl in H.
  - injection H as <-. reflexivity.
  - destruct (nth_error (GRPCAddrs cfg) i); [|discriminate].
    destruct (grpc_dial cfg s && rpc_dial cfg a); [|discriminate].
    destruct (initGreenfieldClients_from cfg (S i) rest) as [cs'| |] eqn:Hr;
      try discriminate.
    injection H as <-. simpl. f_equal. eapply IH; eauto.
Qed.

Lemma NewGreenfieldExecutor_Ok (cfg : Config) (e : Executor) :
  NewGreenfieldExecutor cfg = Ok e ->
  clientIdx e = 0 /\
  List.length (greenfieldClients e) = List.length (RPCAddrs cfg) /\
  validators e = [].
Proof.
  unfold NewGreenfieldExecutor, initGreenfieldClients. intros H.
  destruct (key_address cfg); [|discriminate].
  destruct (initGreenfieldClients_from cfg 0 (RPCAddrs cfg)) as [cs| |] eqn:Hcs;
    try discriminate.
  injection H as <-. simpl. repeat split.
  eapply initGreenfieldClients_from_length; eauto.
Qed.

(** The on-demand read returns the executor it was given. *)
Lemma QueryCachedLatestValidators_state
    (answer : rpc ResultValidators) (e : Executor) :
  snd (value (QueryCachedLatestValidators answer e)) = e.
Proof.
  unfold QueryCachedLatestValidators.
  destruct (negb _); [reflexivity|]. msimpl.
  destruct (value (queryLatestValidators answer e)); reflexivity.
Qed.

(** A tick of the refresh loop touches the cache only. *)
Lemma UpdateCachedLatestValidatorsLoop_tick_state
    (answer : rpc ResultValidators) (e e' : Executor) :
  value (UpdateCachedLatestValidatorsLoop_tick answer e) = Ok e' ->
  clientIdx e' = clientIdx e /\
  greenfieldClients e' = greenfieldClients e /\
  validators e' = match answer with
                  | inl _ => validators e
                  | inr rv => Validators rv
                  end.
Proof.
  unfold UpdateCachedLatestValidatorsLoop_tick, queryLatestValidators.
  destruct (getRpcClient e); msimpl; [|discriminate].
  destruct answer as [err|rv]; msimpl; intros H; injection H as <-; auto.
Qed.

Section ReachableFacts.

Variable RtyAttNum : nat.
Variable FallBehindThreshold : N.
Variable DataSeedDenyServiceThreshold : Z.

Let step := step RtyAttNum FallBehindThreshold DataSeedDenyServiceThreshold.
Let reachable :=
  reachable RtyAttNum FallBehindThreshold DataSeedDenyServiceThreshold.

(** A move keeps the number of handles and the validity of the index. *)
Lemma step_valid (e e' : Executor) :
  step e e' -> valid_index e ->
  valid_index e' /\
  List.length (greenfieldClients e') = List.length (greenfieldClients e).
Proof.
  intros Hs Hv. destruct Hs as [env e e' H | answer e e' H | answer e r e' H].
  - destruct (tick_valid RtyAttNum FallBehindThreshold
                DataSeedDenyServiceThreshold env e Hv)
      as (e1 & He1 & Hcs & _ & Hv1).
    rewrite He1 in H. injection H as <-. split; [exact Hv1|].
    rewrite Hcs. apply collect_length.
  - apply UpdateCachedLatestValidatorsLoop_tick_state in H.
    destruct H as (Hi & Hc & _). unfold valid_index. now rewrite Hi, Hc.
  - pose proof (QueryCachedLatestValidators_state answer e) as Hst.
    rewrite H in Hst. simpl in Hst. subst e'. auto.
Qed.

Lemma reachable_valid (cfg : Config) (e : Executor) :
  RPCAddrs cfg <> [] -> reachable cfg e ->
  valid_index e /\
  List.length (greenfieldClients e) = List.length (RPCAddrs cfg).
Proof.
  intros Hne Hr. induction Hr as [e H | e e' Hr IH Hs].
  - apply NewGreenfieldExecutor_Ok in H. destruct H as (Hi & Hlen & _).
    split; [|exact Hlen]. unfold valid_index. rewrite Hi, Hlen.
    destruct (RPCAddrs cfg); [congruence | simpl; lia].
  - destruct IH as [Hv Hlen].
    destruct (step_valid e e' Hs Hv) as [Hv' Hlen'].
    split; [exact Hv' | congruence].
Qed.

End ReachableFacts.

(** ** The lock around the store to the active index *)



Section LockFacts.

Variable RtyAttNum : nat.
Variable FallBehindThreshold : N.
Variable DataSeedDenyServiceThreshold : Z.

Let tick := UpdateClientLoop_tick RtyAttNum FallBehindThreshold
              DataSeedDenyServiceThreshold.
Let gather := collect RtyAttNum DataSeedDenyServiceThreshold.







End LockFacts.





(** ** Validator cache *)

Lemma getRpcClient_valid (e : Executor) :
  valid_index e -> exists client, getRpcClient e = Some client.
Proof.
  intros Hv. destruct (index_valid _ _ Hv) as [c Hc].
  exists (Provider c). unfold getRpcClient. now rewrite Hc.
Qed.

(** With a cache that is not empty the read is answered from it. *)
Lemma QueryCachedLatestValidators_hit
    (answer : rpc ResultValidators) (e : Executor) :
  validators e <> [] ->
  QueryCachedLatestValidators answer e = (Ok (validators e), e, []).
Proof.
  intros Hne. unfold QueryCachedLatestValidators.
  destruct (validators e); [congruence | reflexivity].
Qed.

(** With an empty cache the read asks the active node, once. *)
Lemma QueryCachedLatestValidators_miss
    (answer : rpc ResultValidators) (e : Executor) (client : string) :
  validators e = [] -> getRpcClient e = Some client ->
  QueryCachedLatestValidators answer e =
  (match answer with
   | inl err => Err err
   | inr rv => Ok (Validators rv)
   end, e, [RpcValidators client None]).
Proof.
  intros Hnil Hc. unfold QueryCachedLatestValidators, queryLatestValidators.
  rewrite Hnil, Hc. destruct answer; reflexivity.
Qed.

Lemma UpdateCachedLatestValidatorsLoop_tick_runs
    (answer : rpc ResultValidators) (e : Executor) :
  valid_index e ->
  exists e',
    value (UpdateCachedLatestValidatorsLoop_tick answer e) = Ok e' /\
    valid_index e' /\
    (forall err, answer = inl err ->
                 In (LogError (refresh_error err))
                    (trace (UpdateCachedLatestValidatorsLoop_tick answer e))).
Proof.
  intros Hv. destruct (getRpcClient_valid e Hv) as [client Hc].
  unfold UpdateCachedLatestValidatorsLoop_tick, queryLatestValidators.
  rewrite Hc. destruct answer as [err|rv]; msimpl.
  - exists e. split; [reflexivity|]. split; [exact Hv|].
    intros err' [= <-]. cbn. auto.
  - eexists. split; [reflexivity|]. split; [exact Hv|].
    intros err' [=].
Qed.

Lemma UpdateCachedLatestValidatorsLoop_runs
    (answers : list (rpc ResultValidators)) :
  forall e,
    valid_index e ->
    exists e',
      value (UpdateCachedLatestValidatorsLoop answers e) = Ok e' /\
      validators e' = last_success answers (validators e).
Proof.
  induction answers as [|answer answers IH]; intros e Hv.
  - exists e. split; reflexivity.
  - destruct (UpdateCachedLatestValidatorsLoop_tick_runs answer e Hv)
      as (e1 & He1 & Hv1 & _).
    destruct (IH e1 Hv1) as (e2 & He2 & Hval).
    exists e2. split.
    + simpl. msimpl. rewrite He1. exact He2.
    + rewrite Hval.
      apply UpdateCachedLatestValidatorsLoop_tick_state in He1.
      destruct He1 as (_ & _ & ->). destruct answer; reflexivity.
Qed.

(** C8.  With an active handle: a cache that is not empty is returned by
    the on-demand read with no remote call; a refresh tick that fails
    ends normally, logs the error and leaves the cache as it was, so a
    read after it still returns the cached sequence; the read calls the
    node exactly when the cache is empty; and after any run of refresh
    ticks the cache is the answer of the last one that succeeded. *)
Theorem validator_cache_keeps_last_success
    (answer : rpc ResultValidators) (e : Executor) :
  valid_index e ->
  (validators e <> [] ->
   QueryCachedLatestValidators answer e = (Ok (validators e), e, [])) /\
  (forall err,
      exists e',
        value (UpdateCachedLatestValidatorsLoop_tick (inl err) e) = Ok e' /\
        validators e' = validators e /\
        In (LogError (refresh_error err))
           (trace (UpdateCachedLatestValidatorsLoop_tick (inl err) e)) /\
        (validators e <> [] ->
         forall answer',
           QueryCachedLatestValidators answer' e'
           = (Ok (validators e), e', []))) /\
  count is_validators (trace (QueryCachedLatestValidators answer e))
  = match validators e with [] => 1%nat | _ => 0%nat end /\
  (forall answers,
      exists e',
        value (UpdateCachedLatestValidatorsLoop answers e) = Ok e' /\
        validators e' = last_success answers (validators e)).
Proof.
  intros Hv. split; [apply QueryCachedLatestValidators_hit|]. split; [|split].
  - intros err.
    destruct (UpdateCachedLatestValidatorsLoop_tick_runs (inl err) e Hv)
      as (e' & He' & _ & Hlog).
    exists e'. split; [exact He'|].
    destruct (UpdateCachedLatestValidatorsLoop_tick_state _ _ _ He')
      as (_ & _ & Hval).
    split; [exact Hval|]. split; [now apply Hlog|].
    intros Hne answer'. rewrite <- Hval.
    apply QueryCachedLatestValidators_hit. now rewrite Hval.
  - destruct (validators e) as [|v vs] eqn:Hval.
    + destruct (getRpcClient_valid e Hv) as [client Hc].
      now rewrite (QueryCachedLatestValidators_miss answer e client Hval Hc).
    + rewrite QueryCachedLatestValidators_hit; [reflexivity|].
      now rewrite Hval.
  - intros answers. now apply UpdateCachedLatestValidatorsLoop_runs.
Qed.

Lemma validator_cache_keeps_last_success_witness :
  exists e',
    value (UpdateCachedLatestValidatorsLoop_tick (inl "node down")
             (cached two_validators)) = Ok e' /\
    QueryCachedLatestValidators (inl "node down") e'
    = (Ok two_validators, e', []).
Proof.
  assert (valid_index (cached two_validators)) as Hv
    by (unfold valid_index; simpl; lia).
  destruct (proj1 (proj2 (validator_cache_keeps_last_success
                            (inl "node down") (cached two_validators) Hv))
              "node down")
    as (e' & He' & _ & _ & Hread).
  exists e'. split; [exact He'|]. apply Hread. discriminate.
Defined.

Section UnrefreshedFacts.

Variable RtyAttNum : nat.
Variable FallBehindThreshold : N.
Variable DataSeedDenyServiceThreshold : Z.

Let tick := UpdateClientLoop_tick RtyAttNum FallBehindThreshold
              DataSeedDenyServiceThreshold.

(** A tick of the monitor loop leaves the cache alone. *)
Lemma tick_validators (env : nat -> Probe) (e e' : Executor) :
  value (tick env e) = Ok e' -> validators e' = validators e.
Proof.
  unfold tick. rewrite tick_value.
  destruct (decide _ _ _); try discriminate.
  intros H. injection H as <-. reflexivity.
Qed.

(** Before the first successful refresh the states are reachable ones
    with an empty cache. *)
Lemma unrefreshed_empty (cfg : Config) (e : Executor) :
  unrefreshed RtyAttNum FallBehindThreshold DataSeedDenyServiceThreshold
    cfg e ->
  reachable RtyAttNum FallBehindThreshold DataSeedDenyServiceThreshold
    cfg e /\
  validators e = [].
Proof.
  intros Hu.
  induction Hu as [e H | env e e' Hu [IHr IHv] H | err e e' Hu [IHr IHv] H
                   | answer e r e' Hu [IHr IHv] H].
  - split; [now apply reach_new|]. now apply NewGreenfieldExecutor_Ok in H.
  - split.
    + eapply reach_step; [exact IHr | eapply step_monitor; exact H].
    + apply tick_validators in H. congruence.
  - split.
    + eapply reach_step; [exact IHr | eapply step_refresh; exact H].
    + apply UpdateCachedLatestValidatorsLoop_tick_state in H.
      destruct H as (_ & _ & H). congruence.
  - split.
    + eapply reach_step; [exact IHr | eapply step_read; exact H].
    + pose proof (QueryCachedLatestValidators_state answer e) as Hst.
      rewrite H in Hst. simpl in Hst. now subst e'.
Qed.

End UnrefreshedFacts.

(** C9.  The on-demand read returns the executor it was given, cache
    included, and so does a tick of the monitor loop as far as the cache
    goes: only a refresh tick writes it.  For an executor built over at
    least one node, in every state reached before a refresh tick has
    succeeded, the cache is empty and each on-demand read calls the node
    once, returns what the node answers, and leaves the cache empty. *)
Theorem on_demand_read_never_caches
    (RtyAttNum : nat) (FallBehindThreshold : N)
    (DataSeedDenyServiceThreshold : Z)
    (cfg : Config) (e : Executor) (answer : rpc ResultValidators) :
  RPCAddrs cfg <> [] ->
  unrefreshed RtyAttNum FallBehindThreshold DataSeedDenyServiceThreshold
    cfg e ->
  (forall a e0, snd (value (QueryCachedLatestValidators a e0)) = e0) /\
  (forall env e0 e1,
      value (UpdateClientLoop_tick RtyAttNum FallBehindThreshold
               DataSeedDenyServiceThreshold env e0) = Ok e1 ->
      validators e1 = validators e0) /\
  validators e = [] /\
  fst (value (QueryCachedLatestValidators answer e))
  = match answer with
    | inl err => Err err
    | inr rv => Ok (Validators rv)
    end /\
  validators (snd (value (QueryCachedLatestValidators answer e))) = [] /\
  count is_validators (trace (QueryCachedLatestValidators answer e)) = 1%nat.
Proof.
  intros Hne Hu.
  split; [exact QueryCachedLatestValidators_state|].
  split; [apply tick_validators|].
  destruct (unrefreshed_empty _ _ _ cfg e Hu) as [Hr Hnil].
  destruct (reachable_valid _ _ _ cfg e Hne Hr) as [Hv _].
  destruct (getRpcClient_valid e Hv) as [client Hc].
  rewrite (QueryCachedLatestValidators_miss answer e client Hnil Hc).
  auto.
Qed.

Lemma on_demand_read_never_caches_witness :
  exists e,
    NewGreenfieldExecutor (config ["rpc0"; "rpc1"] ["grpc0"; "grpc1"]) = Ok e /\
    count is_validators
      (trace (QueryCachedLatestValidators
                (inr {| BlockHeight := 9; Validators := two_validators |}) e))
    = 1%nat.
Proof.
  eexists. split; [reflexivity|].
  apply (on_demand_read_never_caches 5 5 60
           (config ["rpc0"; "rpc1"] ["grpc0"; "grpc1"])).
  - discriminate.
  - apply unref_new. reflexivity.
Defined.

(** ** BLS keys *)

(** Turns of the loop after a panic do not happen. *)
Lemma append_key_Panic (vs : list ValidatorPtr) :
  fold_left append_key vs Panic = Panic.
Proof. induction vs as [|v vs IH]; [reflexivity | exact IH]. Qed.

(** Over pointers that are all set, the loop appends one key each. *)
Lemma append_keys_from (vals : list Validator) :
  forall keys,
    fold_left append_key (map Some vals) (Ok keys)
    = Ok (keys ++ map (fun v => EncodeToString (RelayerBlsKey v)) vals).
Proof.
  induction vals as [|v vals IH]; intros keys; simpl.
  - now rewrite app_nil_r.
  - rewrite IH, <- app_assoc. reflexivity.
Qed.

Lemma append_keys_map (vals : list Validator) :
  append_keys (map Some vals)
  = Ok (map (fun v => EncodeToString (RelayerBlsKey v)) vals).
Proof. unfold append_keys. now rewrite append_keys_from. Qed.

(** A nil pointer anywhere in the slice makes the loop panic. *)
Lemma append_keys_nil_entry (vs : list ValidatorPtr) :
  In None vs -> forall keys, fold_left append_key vs (Ok keys) = Panic.
Proof.
  induction vs as [|v vs IH]; intros Hin keys; [destruct Hin|].
  destruct v as [val|]; simpl.
  - destruct Hin as [Hin|Hin]; [discriminate|]. now apply IH.
  - apply append_key_Panic.
Qed.

(** The loop never ends in an error, and ends with keys only over
    pointers that are all set. *)
Lemma append_keys_Ok (vs : list ValidatorPtr) :
  forall keys0 keys,
    fold_left append_key vs (Ok keys0) = Ok keys ->
    exists vals, vs = map Some vals.
Proof.
  induction vs as [|v vs IH]; intros keys0 keys H.
  - now exists [].
  - destruct v as [val|]; simpl in H.
    + destruct (IH _ _ H) as [vals ->]. now exists (val :: vals).
    + rewrite append_key_Panic in H. discriminate.
Qed.

Lemma append_keys_not_Err (vs : list ValidatorPtr) :
  forall keys0 err, fold_left append_key vs (Ok keys0) <> Err err.
Proof.
  induction vs as [|v vs IH]; intros keys0 err; simpl; [discriminate|].
  destruct v as [val|]; [apply IH|].
  rewrite append_key_Panic. discriminate.
Qed.

Example EncodeToString_dead : EncodeToString [xde; xad; x00; x0f] = "dead000f".
Proof. reflexivity. Qed.

(** C10.  [GetValidatorsBlsPublicKey] returns an error exactly when the
    cached read returns one, and it is the same error.  When it returns
    keys, the read gave a sequence of validators and there is one key
    per validator, in the same order, the key at each position being the
    hexadecimal text of that validator's [RelayerBlsKey]; it does return
    keys whenever the read gives validators none of which is a nil
    pointer.  On a sequence with a nil pointer the call panics: it
    returns neither keys nor an error. *)
Theorem GetValidatorsBlsPublicKey_keys
    (answer : rpc ResultValidators) (e : Executor) :
  let r := fst (value (GetValidatorsBlsPublicKey answer e)) in
  let q := fst (value (QueryCachedLatestValidators answer e)) in
  (forall err, r = Err err <-> q = Err err) /\
  (forall keys,
      r = Ok keys ->
      exists vals,
        q = Ok (map Some vals) /\
        List.length keys = List.length vals /\
        forall i, nth_error keys i
                  = option_map (fun v => EncodeToString (RelayerBlsKey v))
                      (nth_error vals i)) /\
  (forall vals,
      q = Ok (map Some vals) ->
      r = Ok (map (fun v => EncodeToString (RelayerBlsKey v)) vals)) /\
  (forall vs, q = Ok vs -> In None vs -> r = Panic).
Proof.
  cbv zeta. unfold GetValidatorsBlsPublicKey. msimpl.
  destruct (value (QueryCachedLatestValidators answer e)) as [[vs|err|] e'];
    simpl.
  - split; [|split; [|split]].
    + intros err. split; [|discriminate].
      intros H. now apply append_keys_not_Err in H.
    + intros keys H. destruct (append_keys_Ok _ _ _ H) as [vals ->].
      exists vals. split; [reflexivity|].
      rewrite append_keys_map in H. injection H as <-.
      split; [apply List.length_map|]. intros i. apply nth_error_map.
    + intros vals [= ->]. apply append_keys_map.
    + intros vs' [= <-] Hin. now apply append_keys_nil_entry.
  - split; [intros err'; split; intros [= <-]; reflexivity|].
    split; [intros keys H; discriminate H|].
    split; [intros vals H | intros vs H]; discriminate H.
  - split; [intros err; split; discriminate|].
    split; [intros keys H; discriminate H|].
    split; [intros vals H | intros vs H]; discriminate H.
Qed.

Lemma GetValidatorsBlsPublicKey_keys_witness :
  exists keys,
    fst (value (GetValidatorsBlsPublicKey (inl "unused")
                  (cached two_validators))) = Ok keys /\
    nth_error keys 0 = Some "dead" /\ nth_error keys 1 = Some "beef".
Proof.
  assert (fst (value (QueryCachedLatestValidators (inl "unused")
                        (cached two_validators)))
          = Ok (map Some [validator [x01] [xde; xad];
                          validator [x02] [xbe; xef]])) as Hq
    by (vm_compute; reflexivity).
  pose proof (GetValidatorsBlsPublicKey_keys (inl "unused")
                (cached two_validators)) as H.
  cbv zeta in H. destruct H as (_ & _ & H & _).
  specialize (H _ Hq).
  eexists. split; [exact H|]. split; vm_compute; reflexivity.
Defined.

(** ** Light block builder *)

Section LightBlockFacts.

Variables SignedHeader ValidatorSet LightBlockProto : Type.
Variable NewValidatorSet : list ValidatorPtr -> option ValidatorSet.
Variable ToProto : SignedHeader -> ValidatorSet -> result LightBlockProto.
Variable Marshal : LightBlockProto -> result (list byte).

Let build := QueryTendermintLightBlock NewValidatorSet ToProto Marshal.

(** An error of the [Commit] call is returned, whatever the
    [Validators] call gave. *)
Lemma QueryTendermintLightBlock_commit_error
    (height : Z) (answerV : rpc ResultValidators) (err : error)
    (e e' : Executor) :
  valid_index e -> valid_index e' ->
  value (build height answerV (inl err) e e') = Err err.
Proof.
  intros Hv Hv'. destruct (getRpcClient_valid e Hv) as [client Hc].
  destruct (getRpcClient_valid e' Hv') as [client' Hc'].
  unfold build, QueryTendermintLightBlock. rewrite Hc. msimpl.
  rewrite Hc'. msimpl. reflexivity.
Qed.

(** No bytes come back when one of the two calls failed. *)
Lemma QueryTendermintLightBlock_no_partial
    (height : Z) (answerV : rpc ResultValidators)
    (answerC : rpc SignedHeader) (e e' : Executor) (bz : list byte) :
  value (build height answerV answerC e e') = Ok bz ->
  exists rv signedHeader, answerV = inr rv /\ answerC = inr signedHeader.
Proof.
  unfold build, QueryTendermintLightBlock.
  destruct (getRpcClient e); [|discriminate]. msimpl.
  destruct (getRpcClient e'); [|discriminate]. msimpl.
  destruct answerC as [err|signedHeader]; [discriminate|].
  destruct answerV as [err|rv]; [discriminate|]. eauto.
Qed.

(** A failed [Validators] call followed by a successful [Commit] call
    ends in a panic, wherever the second call went. *)
Lemma QueryTendermintLightBlock_nil_validators
    (height : Z) (err : error) (signedHeader : SignedHeader)
    (e e' : Executor) :
  valid_index e ->
  value (build height (inl err) (inr signedHeader) e e') = Panic.
Proof.
  intros Hv. destruct (getRpcClient_valid e Hv) as [client Hc].
  unfold build, QueryTendermintLightBlock. rewrite Hc. msimpl.
  destruct (getRpcClient e'); reflexivity.
Qed.

End LightBlockFacts.

(** C1, where the code departs from it.  When the [Validators] call
    fails and the [Commit] call succeeds, the builder does not return the
    error: the error was overwritten, and the nil result is dereferenced,
    which is a panic.  An error of the [Commit] call alone does reach
    the caller, and no bytes are ever returned after a failed call. *)
Theorem QueryTendermintLightBlock_validators_error_lost
    (SignedHeader ValidatorSet LightBlockProto : Type)
    (NewValidatorSet : list ValidatorPtr -> option ValidatorSet)
    (ToProto : SignedHeader -> ValidatorSet -> result LightBlockProto)
    (Marshal : LightBlockProto -> result (list byte))
    (height : Z) (err : error) (signedHeader : SignedHeader)
    (c : ExecutorClient) (cs : list ExecutorClient) :
  (forall e',
      value (QueryTendermintLightBlock NewValidatorSet ToProto Marshal height
               (inl err) (inr signedHeader) (pool 0 (c :: cs)) e') = Panic) /\
  (forall answerV err' c' cs',
      value (QueryTendermintLightBlock NewValidatorSet ToProto Marshal height
               answerV (inl err') (pool 0 (c :: cs)) (pool 0 (c' :: cs')))
      = Err err') /\
  (forall answerV answerC e' bz,
      value (QueryTendermintLightBlock NewValidatorSet ToProto Marshal height
               answerV answerC (pool 0 (c :: cs)) e') = Ok bz ->
      exists rv sh, answerV = inr rv /\ answerC = inr sh).
Proof.
  assert (forall c0 cs0, valid_index (pool 0 (c0 :: cs0))) as Hv
    by (intros c0 cs0; unfold valid_index; simpl; lia).
  split; [|split].
  - intros e'. now apply QueryTendermintLightBlock_nil_validators.
  - intros answerV err' c' cs'.
    now apply QueryTendermintLightBlock_commit_error.
  - intros answerV answerC e' bz.
    apply QueryTendermintLightBlock_no_partial.
Qed.

(** * Further properties of the executor *)

(** ** The retry wrapper, whatever the node answers *)

Section RetryOutcome.

Variable client : string.
Variable answers : nat -> rpc Z.

Let attempt := fun n (_ : N) => getLatestBlockHeight client (answers n).
Let onRetry := fun (n : nat) (_ : error) => emit (LogRetry (S n)).

(** What a run of at most [S k] attempts did, read off its result: [a]
    attempts were made, all but the last failed, and the last one
    decided the result. *)
Lemma Do_from_outcome (k : nat) :
  forall n s,
    let r := Do_from attempt onRetry (S k) n s in
    let a := count is_status (trace r) in
    (1 <= a <= S k)%nat /\
    count is_delay (trace r) = (a - 1)%nat /\
    (forall i, (i < a - 1)%nat -> exists err, answers (n + i)%nat = inl err) /\
    match snd (value r) with
    | None =>
        count is_retry_log (trace r) = (a - 1)%nat /\
        exists v, answers (n + (a - 1))%nat = inr v /\
                  fst (value r) = u64_of_int64 v
    | Some err =>
        a = S k /\ count is_retry_log (trace r) = S k /\
        answers (n + k)%nat = inl err /\ fst (value r) = 0%N
    end.
Proof.
  induction k as [|k IH]; intros n s; cbv zeta.
  - rewrite Do_from_S. unfold attempt, getLatestBlockHeight.
    destruct (answers n) as [err|v] eqn:Hn.
    + cbn. repeat split; try lia; rewrite ?Nat.add_0_r; eauto.
    + cbn. repeat split; try lia; rewrite ?Nat.add_0_r; eauto.
  - rewrite Do_from_S.
    change (attempt n s) with (getLatestBlockHeight client (answers n)).
    unfold getLatestBlockHeight.
    destruct (answers n) as [err|v] eqn:Hn.
    + specialize (IH (S n) 0%N). cbv zeta in IH.
      destruct IH as (Ha & Hd & Hfail & Hres).
      msimpl. rewrite !count_app.
      set (r' := Do_from attempt onRetry (S k) (S n) 0%N) in *.
      set (a' := count is_status (trace r')) in *.
      change (count is_status [RpcStatus client]) with 1%nat.
      change (count is_status []) with 0%nat.
      change (count is_status [LogRetry (S n)]) with 0%nat.
      change (count is_status [Delay]) with 0%nat.
      change (count is_delay [RpcStatus client]) with 0%nat.
      change (count is_delay []) with 0%nat.
      change (count is_delay [LogRetry (S n)]) with 0%nat.
      change (count is_delay [Delay]) with 1%nat.
      change (count is_retry_log [RpcStatus client]) with 0%nat.
      change (count is_retry_log []) with 0%nat.
      change (count is_retry_log [LogRetry (S n)]) with 1%nat.
      change (count is_retry_log [Delay]) with 0%nat.
      rewrite Hd. simpl Nat.add.
      split; [lia|]. split; [lia|]. split.
      * intros i Hi. destruct i as [|i].
        { exists err. now rewrite Nat.add_0_r. }
        destruct (Hfail i) as [e He]; [lia|].
        exists e. rewrite <- He. f_equal. lia.
      * destruct (snd (value r')) as [err'|].
        { destruct Hres as (Hk & Hr & Hlast & Hv).
          rewrite Hr, Hv. repeat split; try lia.
          rewrite <- Hlast. f_equal. lia. }
        { destruct Hres as (Hr & v & Hv & Hval).
          rewrite Hr. split; [lia|]. exists v. split; [|exact Hval].
          rewrite <- Hv. f_equal. lia. }
    + cbn. repeat split; try lia; rewrite ?Nat.add_0_r; eauto.
Qed.

End RetryOutcome.

Lemma u64_of_int64_bound (z : Z) : (u64_of_int64 z < U64)%N.
Proof.
  unfold u64_of_int64.
  assert (0 < Z.of_N U64) by (vm_compute; reflexivity).
  pose proof (Z.mod_pos_bound z (Z.of_N U64) H). lia.
Qed.

(** The height the wrapper returns is a [uint64] value. *)
Lemma getLatestBlockHeightWithRetry_bound
    (RtyAttNum : nat) (client : string) (answers : nat -> rpc Z) :
  (fst (value (getLatestBlockHeightWithRetry RtyAttNum client answers))
   < U64)%N.
Proof.
  unfold getLatestBlockHeightWithRetry, Do.
  destruct RtyAttNum as [|k]; [vm_compute; reflexivity|].
  pose proof (Do_from_outcome client answers k 0 0%N) as H.
  cbv zeta in H. destruct H as (_ & _ & _ & H).
  destruct (snd (value _)) as [err|].
  - destruct H as (_ & _ & _ & ->). vm_compute. reflexivity.
  - destruct H as (_ & v & _ & ->). apply u64_of_int64_bound.
Qed.

(** The same for the wrapper under a budget of at least one attempt. *)
Lemma retry_outcome
    (RtyAttNum : nat) (client : string) (answers : nat -> rpc Z) :
  (0 < RtyAttNum)%nat ->
  let r := getLatestBlockHeightWithRetry RtyAttNum client answers in
  let a := count is_status (trace r) in
  (1 <= a <= RtyAttNum)%nat /\
  count is_delay (trace r) = (a - 1)%nat /\
  (forall i, (i < a - 1)%nat -> exists err, answers i = inl err) /\
  match snd (value r) with
  | None =>
      count is_retry_log (trace r) = (a - 1)%nat /\
      exists v, answers (a - 1)%nat = inr v /\
                fst (value r) = u64_of_int64 v
  | Some err =>
      a = RtyAttNum /\ count is_retry_log (trace r) = RtyAttNum /\
      answers (RtyAttNum - 1)%nat = inl err /\ fst (value r) = 0%N
  end.
Proof.
  intros Hpos. destruct RtyAttNum as [|k]; [lia|].
  replace (S k - 1)%nat with k by lia.
  exact (Do_from_outcome client answers k 0 0%N).
Qed.

(** X1.  Under a budget of at least one attempt, whatever the node
    answers: between one and the budget's number of [Status] calls are
    made, with one pause between two consecutive calls; every call but
    the last failed; a result without error is the height of the last
    answer, after one callback per failed call; a result with an error
    carries the error of the last call, height 0, and means that the
    whole budget was used. *)
Theorem getLatestBlockHeightWithRetry_outcome
    (RtyAttNum : nat) (client : string) (answers : nat -> rpc Z) :
  (0 < RtyAttNum)%nat ->
  let r := getLatestBlockHeightWithRetry RtyAttNum client answers in
  let a := count is_status (trace r) in
  (1 <= a <= RtyAttNum)%nat /\
  count is_delay (trace r) = (a - 1)%nat /\
  (forall i, (i < a - 1)%nat -> exists err, answers i = inl err) /\
  match snd (value r) with
  | None =>
      count is_retry_log (trace r) = (a - 1)%nat /\
      exists v, answers (a - 1)%nat = inr v /\
                fst (value r) = u64_of_int64 v
  | Some err =>
      a = RtyAttNum /\ count is_retry_log (trace r) = RtyAttNum /\
      answers (RtyAttNum - 1)%nat = inl err /\ fst (value r) = 0%N
  end.
Proof.
  exact (retry_outcome RtyAttNum client answers).
Qed.

Lemma getLatestBlockHeightWithRetry_outcome_witness :
  (count is_status
     (trace (getLatestBlockHeightWithRetry 5 "node0"
               (fun i => if (i <? 2)%nat then inl "timeout" else inr 42%Z)))
   <= 5)%nat.
Proof.
  exact (proj2 (proj1 (getLatestBlockHeightWithRetry_outcome 5 "node0"
           (fun i => if (i <? 2)%nat then inl "timeout" else inr 42%Z)
           ltac:(lia)))).
Defined.

(** ** The monitor loop: calls made, handles kept, where it ends up *)

Section TickBudget.

Variable RtyAttNum : nat.
Variable FallBehindThreshold : N.
Variable DataSeedDenyServiceThreshold : Z.

Let visit := poll RtyAttNum DataSeedDenyServiceThreshold.
Let gather := collect RtyAttNum DataSeedDenyServiceThreshold.
Let tick := UpdateClientLoop_tick RtyAttNum FallBehindThreshold
              DataSeedDenyServiceThreshold.

(** Log lines aside, a visit does what its height query does. *)
Lemma poll_count (pr : Event -> bool) (p : Probe) (c : ExecutorClient) :
  (forall msg, pr (LogError msg) = false) ->
  count pr (trace (visit p c)) =
  count pr (trace (getLatestBlockHeightWithRetry RtyAttNum (Provider c)
                     (status p))).
Proof.
  intros Hpr. unfold visit, poll. msimpl. rewrite !count_app.
  assert (forall b : bool,
             count pr (trace (if b then emit (LogError (not_accessable c))
                              else ret tt)) = 0%nat) as H0.
  { intros [|]; cbn; [now rewrite Hpr | reflexivity]. }
  rewrite H0.
  destruct (value (getLatestBlockHeightWithRetry RtyAttNum (Provider c)
                     (status p))) as [h [err|]]; msimpl.
  - unfold count at 2. cbn. rewrite Hpr. cbn. lia.
  - cbn. lia.
Qed.

Lemma collect_count (pr : Event -> bool) (lo hi : nat)
    (env : nat -> Probe) (cs : list ExecutorClient) :
  (forall msg, pr (LogError msg) = false) ->
  (forall client answers,
      (lo <= count pr (trace (getLatestBlockHeightWithRetry RtyAttNum client
                                answers)) <= hi)%nat) ->
  forall i,
    (List.length cs * lo <= count pr (trace (gather env i cs))
     <= List.length cs * hi)%nat.
Proof.
  intros Hpr Hq. induction cs as [|c cs IH]; intros i.
  - cbn. lia.
  - unfold gather in *. simpl collect. msimpl. rewrite !count_app.
    fold visit. rewrite (poll_count pr (env i) c Hpr).
    specialize (Hq (Provider c) (status (env i))). specialize (IH (S i)).
    change (count pr []) with 0%nat. simpl List.length. lia.
Qed.

Lemma tick_count (pr : Event -> bool) (env : nat -> Probe) (e : Executor) :
  (forall msg, pr (LogInfo msg) = false) ->
  (forall ev, is_plain ev = false -> pr ev = false) ->
  count pr (trace (tick env e)) =
  count pr (trace (gather env 0%nat (greenfieldClients e))).
Proof.
  intros Hpr Hplain. unfold tick, UpdateClientLoop_tick. msimpl.
  rewrite !count_app. fold gather.
  assert (count pr (trace (switch FallBehindThreshold
                             (value (gather env 0%nat (greenfieldClients e)))
                             (clientIdx e))) = 0%nat) as Hsw.
  { destruct (switch_trace FallBehindThreshold
                (value (gather env 0%nat (greenfieldClients e))) (clientIdx e))
      as [-> | (active & _ & _ & ->)]; [reflexivity|].
    unfold count. cbn [filter].
    rewrite !Hplain by reflexivity. reflexivity. }
  rewrite Hsw.
  destruct (value (switch _ _ _)); cbn; rewrite Hpr; cbn; lia.
Qed.

End TickBudget.

(** X2.  With a budget of at least one attempt, a tick of the monitor
    loop over [n] handles makes at least [n] and at most [n] times the
    budget [Status] calls, and pauses at most [n] times the budget minus
    one: the time a tick can take is bounded, whatever the nodes do. *)
Theorem UpdateClientLoop_tick_budget
    (RtyAttNum : nat) (FallBehindThreshold : N)
    (DataSeedDenyServiceThreshold : Z)
    (env : nat -> Probe) (e : Executor) :
  (0 < RtyAttNum)%nat ->
  let t := trace (UpdateClientLoop_tick RtyAttNum FallBehindThreshold
                    DataSeedDenyServiceThreshold env e) in
  let n := List.length (greenfieldClients e) in
  (n <= count is_status t <= n * RtyAttNum)%nat /\
  (count is_delay t <= n * (RtyAttNum - 1))%nat.
Proof.
  intros Hpos t n. subst t n.
  rewrite !tick_count
    by (try reflexivity; intros [| | | | | | | | | |]; simpl;
        (reflexivity || discriminate)).
  split.
  - pose proof (collect_count RtyAttNum DataSeedDenyServiceThreshold
                  is_status 1 RtyAttNum env (greenfieldClients e)) as H.
    rewrite Nat.mul_1_r in H. apply H; [reflexivity|].
    intros client answers.
    now destruct (retry_outcome RtyAttNum client
                    answers Hpos) as (Ha & _).
  - pose proof (collect_count RtyAttNum DataSeedDenyServiceThreshold
                  is_delay 0 (RtyAttNum - 1) env (greenfieldClients e)) as H.
    apply H; [reflexivity|].
    intros client answers.
    destruct (retry_outcome RtyAttNum client
                answers Hpos) as (Ha & Hd & _).
    rewrite Hd. lia.
Qed.

Lemma UpdateClientLoop_tick_budget_witness :
  (count is_status
     (trace (UpdateClientLoop_tick 5 5 60 nodes_silent_7
               (pool 0 two_handles))) <= 10)%nat.
Proof.
  exact (proj2 (proj1 (UpdateClientLoop_tick_budget 5 5 60 nodes_silent_7
                         (pool 0 two_handles) ltac:(lia)))).
Defined.

Section DecideResult.

Variable FallBehindThreshold : N.

(** The handle the decision settles on trails no handle by more than
    the threshold. *)
Lemma decide_result (cs : list ExecutorClient) (idx idx' : Z) :
  decide FallBehindThreshold cs idx = Ok idx' ->
  exists act,
    index cs idx' = Some act /\
    forall c, In c cs -> (Height c <= Height act + FallBehindThreshold)%N.
Proof.
  unfold decide. intros H.
  destruct (index cs idx) as [active|] eqn:Hact.
  2:{ destruct (highest cs); discriminate. }
  assert (cs <> []) as Hne.
  { intros ->. apply index_Some in Hact. simpl in Hact. lia. }
  destruct (highest_spec cs Hne) as (top & Htop & Hh & Hmax & _).
  destruct (highest cs) as [hh hi]. simpl in *.
  unfold fall_behind in H.
  destruct (N.ltb_spec (u64_add (Height active) FallBehindThreshold) hh)
    as [Hlt|Hge]; injection H as <-.
  - exists top. split; [exact Htop|].
    intros c Hc. specialize (Hmax c Hc). lia.
  - exists active. split; [exact Hact|].
    intros c Hc. specialize (Hmax c Hc).
    assert (u64_add (Height active) FallBehindThreshold
            <= Height active + FallBehindThreshold)%N.
    { unfold u64_add. apply N.Div0.mod_le. }
    lia.
Qed.

(** Deciding again on the same heights does not move the index. *)
Lemma decide_idempotent (cs : list ExecutorClient) (idx idx' : Z) :
  decide FallBehindThreshold cs idx = Ok idx' ->
  decide FallBehindThreshold cs idx' = Ok idx'.
Proof.
  unfold decide. intros H.
  destruct (index cs idx) as [active|] eqn:Hact.
  2:{ destruct (highest cs); discriminate. }
  assert (cs <> []) as Hne.
  { intros ->. apply index_Some in Hact. simpl in Hact. lia. }
  destruct (highest_spec cs Hne) as (top & Htop & _).
  destruct (highest cs) as [hh hi]. simpl in *.
  destruct (fall_behind FallBehindThreshold active hh) eqn:Hfb;
    injection H as <-.
  - rewrite Htop. now destruct (fall_behind FallBehindThreshold top hh).
  - now rewrite Hact, Hfb.
Qed.

End DecideResult.

Section TickResult.

Variable RtyAttNum : nat.
Variable FallBehindThreshold : N.
Variable DataSeedDenyServiceThreshold : Z.

Let visit := poll RtyAttNum DataSeedDenyServiceThreshold.
Let gather := collect RtyAttNum DataSeedDenyServiceThreshold.
Let tick := UpdateClientLoop_tick RtyAttNum FallBehindThreshold
              DataSeedDenyServiceThreshold.

(** What a tick that ends normally returns. *)
Lemma tick_Ok (env : nat -> Probe) (e e' : Executor) :
  value (tick env e) = Ok e' ->
  greenfieldClients e' = value (gather env 0%nat (greenfieldClients e)) /\
  address e' = address e /\ validators e' = validators e /\
  decide FallBehindThreshold (greenfieldClients e') (clientIdx e)
  = Ok (clientIdx e').
Proof.
  unfold tick. rewrite tick_value. fold gather.
  destruct (decide _ _ _) as [idx| |] eqn:Hd; try discriminate.
  intros H. injection H as <-. simpl. auto.
Qed.

Lemma poll_Provider (p : Probe) (c : ExecutorClient) :
  Provider (value (visit p c)) = Provider c.
Proof.
  unfold visit, poll. msimpl.
  destruct (value (getLatestBlockHeightWithRetry _ _ _)) as [h [err|]];
    reflexivity.
Qed.

Lemma poll_Height (p : Probe) (c : ExecutorClient) :
  (Height c < U64)%N -> (Height (value (visit p c)) < U64)%N.
Proof.
  intros Hc. unfold visit, poll. msimpl.
  pose proof (getLatestBlockHeightWithRetry_bound RtyAttNum (Provider c)
                (status p)) as Hb.
  destruct (value (getLatestBlockHeightWithRetry _ _ _)) as [h [err|]];
    msimpl; [exact Hc | exact Hb].
Qed.

Lemma collect_Provider (env : nat -> Probe) (cs : list ExecutorClient) :
  forall i, map Provider (value (gather env i cs)) = map Provider cs.
Proof.
  induction cs as [|c cs IH]; intros i; [reflexivity|].
  unfold gather in *. simpl collect. msimpl. simpl.
  fold visit. now rewrite poll_Provider, IH.
Qed.

Lemma collect_Height (env : nat -> Probe) (cs : list ExecutorClient) :
  forall i,
    Forall (fun c => (Height c < U64)%N) cs ->
    Forall (fun c => (Height c < U64)%N) (value (gather env i cs)).
Proof.
  induction cs as [|c cs IH]; intros i H.
  - constructor.
  - inversion H as [|c' cs' Hc Hcs]; subst.
    unfold gather in *. simpl collect. msimpl. constructor.
    + now apply poll_Height.
    + now apply IH.
Qed.

(** When every height query fails the handles stay as they were. *)
Lemma collect_all_failed (env : nat -> Probe) (cs : list ExecutorClient) :
  forall i,
    (forall k c, nth_error cs k = Some c ->
                 snd (value (getLatestBlockHeightWithRetry RtyAttNum
                               (Provider c) (status (env (i + k)%nat))))
                 <> None) ->
    value (gather env i cs) = cs.
Proof.
  induction cs as [|c cs IH]; intros i H; [reflexivity|].
  unfold gather in *. simpl collect. msimpl. f_equal.
  - specialize (H 0%nat c eq_refl). rewrite Nat.add_0_r in H.
    destruct (value (getLatestBlockHeightWithRetry RtyAttNum (Provider c)
                       (status (env i)))) as [h [err|]] eqn:Hq;
      [|now contradiction H].
    now destruct (poll_failed RtyAttNum DataSeedDenyServiceThreshold
                    (env i) c h err Hq).
  - apply IH. intros k c' Hk. specialize (H (S k) c' Hk).
    now rewrite Nat.add_succ_r in H.
Qed.

End TickResult.

(** X3.  After every tick from a valid index the active handle, which
    is the one [getRpcClient] serves the foreground calls from, trails no
    handle of the pool by more than the threshold. *)
Theorem UpdateClientLoop_active_within_threshold
    (RtyAttNum : nat) (FallBehindThreshold : N)
    (DataSeedDenyServiceThreshold : Z)
    (env : nat -> Probe) (e : Executor) :
  valid_index e ->
  exists e' act,
    value (UpdateClientLoop_tick RtyAttNum FallBehindThreshold
             DataSeedDenyServiceThreshold env e) = Ok e' /\
    index (greenfieldClients e') (clientIdx e') = Some act /\
    getRpcClient e' = Some (Provider act) /\
    forall c, In c (greenfieldClients e') ->
              (Height c <= Height act + FallBehindThreshold)%N.
Proof.
  intros Hv.
  destruct (tick_valid RtyAttNum FallBehindThreshold
              DataSeedDenyServiceThreshold env e Hv) as (e' & He' & _).
  destruct (tick_Ok _ _ _ env e e' He') as (_ & _ & _ & Hd).
  destruct (decide_result _ _ _ _ Hd) as (act & Hact & Hmax).
  exists e', act. repeat split; auto.
  unfold getRpcClient. now rewrite Hact.
Qed.

Lemma UpdateClientLoop_active_within_threshold_witness :
  exists e',
    value (UpdateClientLoop_tick 5 5 60 nodes_100_106 (pool 0 two_handles))
    = Ok e' /\ getRpcClient e' <> None.
Proof.
  destruct (UpdateClientLoop_active_within_threshold 5 5 60 nodes_100_106
              (pool 0 two_handles))
    as (e' & act & He' & _ & Hc & _).
  - unfold valid_index. simpl. lia.
  - exists e'. split; [exact He'|]. rewrite Hc. discriminate.
Defined.

(** X4.  Once a tick has ended, a tick in which the height query of
    every handle fails changes nothing: the handles keep their metadata
    and the active index stays where it is. *)
Theorem UpdateClientLoop_outage_keeps_state
    (RtyAttNum : nat) (FallBehindThreshold : N)
    (DataSeedDenyServiceThreshold : Z)
    (env env2 : nat -> Probe) (e e1 : Executor) :
  value (UpdateClientLoop_tick RtyAttNum FallBehindThreshold
           DataSeedDenyServiceThreshold env e) = Ok e1 ->
  (forall i c,
      nth_error (greenfieldClients e1) i = Some c ->
      snd (value (getLatestBlockHeightWithRetry RtyAttNum (Provider c)
                    (status (env2 i)))) <> None) ->
  value (UpdateClientLoop_tick RtyAttNum FallBehindThreshold
           DataSeedDenyServiceThreshold env2 e1) = Ok e1.
Proof.
  intros He1 Hfail.
  destruct (tick_Ok _ _ _ env e e1 He1) as (_ & _ & _ & Hd).
  apply decide_idempotent in Hd.
  rewrite tick_value.
  rewrite (collect_all_failed RtyAttNum DataSeedDenyServiceThreshold env2
             (greenfieldClients e1) 0 Hfail).
  rewrite Hd. now destruct e1.
Qed.

Lemma UpdateClientLoop_outage_keeps_state_witness :
  exists e1,
    value (UpdateClientLoop_tick 5 5 60 nodes_100_106 (pool 0 two_handles))
    = Ok e1 /\
    value (UpdateClientLoop_tick 5 5 60 (fun _ => silent (200 * Second)) e1)
    = Ok e1.
Proof.
  destruct (tick_valid 5 5 60 nodes_100_106 (pool 0 two_handles))
    as (e1 & He1 & _); [unfold valid_index; simpl; lia|].
  exists e1. split; [exact He1|].
  apply (UpdateClientLoop_outage_keeps_state 5 5 60 nodes_100_106
           (fun _ => silent (200 * Second)) (pool 0 two_handles) e1 He1).
  intros i c _. vm_compute. discriminate.
Defined.

Lemma u64_of_int64_negative (z : Z) :
  - I64 <= z < 0 -> u64_of_int64 z = Z.to_N (Z.of_N U64 + z).
Proof.
  intros Hz. unfold u64_of_int64. f_equal.
  assert (Z.of_N U64 = 2 * I64) as HU by (vm_compute; reflexivity).
  assert (0 < I64) as HI by (vm_compute; reflexivity).
  symmetry. apply (Z.mod_unique_pos z (Z.of_N U64) (-1)); lia.
Qed.


(** X5.  A height the node reports is stored as it is when it is not
    negative, and as 2^64 plus the height when it is negative: a handle
    whose node answers the first call with a negative height ends the
    tick with a height of at least 2^63, and the handle that is active
    after the tick is then within the threshold of 2^63, whatever the
    other nodes said. *)
Theorem UpdateClientLoop_negative_height
    (RtyAttNum : nat) (FallBehindThreshold : N)
    (DataSeedDenyServiceThreshold : Z)
    (env : nat -> Probe) (e : Executor)
    (j : nat) (cj : ExecutorClient) (z : Z) :
  valid_index e ->
  (0 < RtyAttNum)%nat ->
  nth_error (greenfieldClients e) j = Some cj ->
  status (env j) 0%nat = inr z ->
  - I64 <= z < 0 ->
  exists e' act,
    value (UpdateClientLoop_tick RtyAttNum FallBehindThreshold
             DataSeedDenyServiceThreshold env e) = Ok e' /\
    nth_error (greenfieldClients e') j =
    Some {| Provider := Provider cj;
            Height := Z.to_N (Z.of_N U64 + z);
            UpdatedAt := now_update (env j) |} /\
    index (greenfieldClients e') (clientIdx e') = Some act /\
    (Z.to_N I64 <= Height act + FallBehindThreshold)%N.
Proof.
  intros Hv Hpos Hj Hz Hneg.
  destruct (tick_valid RtyAttNum FallBehindThreshold
              DataSeedDenyServiceThreshold env e Hv) as (e' & He' & Hcs & _).
  destruct (tick_Ok _ _ _ env e e' He') as (_ & _ & _ & Hd).
  destruct (decide_result _ _ _ _ Hd) as (act & Hact & Hmax).
  assert (value (getLatestBlockHeightWithRetry RtyAttNum (Provider cj)
                   (status (env j))) = (u64_of_int64 z, None)) as Hq.
  { unfold getLatestBlockHeightWithRetry, Do.
    destruct (Do_from_succeeds (Provider cj) (status (env j)) 0 RtyAttNum
                0 0%N z) as (H & _); auto.
    intros i Hi. lia. }
  assert (nth_error (greenfieldClients e') j =
          Some {| Provider := Provider cj;
                  Height := Z.to_N (Z.of_N U64 + z);
                  UpdatedAt := now_update (env j) |}) as Hj'.
  { rewrite Hcs, collect_nth, Hj. cbn [option_map Nat.add]. f_equal.
    rewrite (poll_succeeded RtyAttNum DataSeedDenyServiceThreshold
               (env j) cj _ Hq).
    now rewrite u64_of_int64_negative. }
  exists e', act.
  split; [exact He'|]. split; [exact Hj'|]. split; [exact Hact|].
  specialize (Hmax _ (nth_error_In _ _ Hj')). cbn [Height] in Hmax.
  assert (Z.of_N U64 = 2 * I64) as HU by (vm_compute; reflexivity).
  assert (0 < I64) as HI by (vm_compute; reflexivity).
  lia.
Qed.

Lemma UpdateClientLoop_negative_height_witness :
  exists e' act,
    value (UpdateClientLoop_tick 5 5 60
             (fun i => match i with O => answering 100 | _ => answering (-1) end)
             (pool 0 two_handles)) = Ok e' /\
    index (greenfieldClients e') (clientIdx e') = Some act /\
    (Z.to_N I64 <= Height act + 5)%N.
Proof.
  destruct (UpdateClientLoop_negative_height 5 5 60
              (fun i => match i with O => answering 100 | _ => answering (-1) end)
              (pool 0 two_handles) 1 (handle "rpc1" 0 0) (-1))
    as (e' & act & He' & _ & Hact & Hh).
  - unfold valid_index. simpl. lia.
  - lia.
  - reflexivity.
  - reflexivity.
  - vm_compute. split; [discriminate | reflexivity].
  - exists e', act. auto.
Defined.

(** ** Construction *)

Lemma initGreenfieldClients_from_short (cfg : Config) (rest : list string) :
  forall i,
    (i <= List.length (GRPCAddrs cfg))%nat ->
    (List.length (GRPCAddrs cfg) < i + List.length rest)%nat ->
    initGreenfieldClients_from cfg i rest = Panic.
Proof.
  induction rest as [|a rest IH]; intros i Hi Hlen; simpl in *; [lia|].
  destruct (nth_error (GRPCAddrs cfg) i) as [g|] eqn:Hg; [|reflexivity].
  destruct (grpc_dial cfg g && rpc_dial cfg a); [|reflexivity].
  assert (i < List.length (GRPCAddrs cfg))%nat
    by (apply nth_error_Some; congruence).
  rewrite IH; [reflexivity | lia | lia].
Qed.

Lemma initGreenfieldClients_from_Ok (cfg : Config) (rest : list string) :
  forall i cs,
    initGreenfieldClients_from cfg i rest = Ok cs ->
    map Provider cs = rest /\
    Forall (fun c => Height c = 0%N) cs.
Proof.
  induction rest as [|a rest IH]; intros i cs H; simpl in H.
  - injection H as <-. split; [reflexivity | apply Forall_nil].
  - destruct (nth_error (GRPCAddrs cfg) i) as [g|] eqn:Hg; [|discriminate].
    destruct (grpc_dial cfg g && rpc_dial cfg a); [|discriminate].
    destruct (initGreenfieldClients_from cfg (S i) rest) as [cs'| |] eqn:Hr;
      try discriminate.
    injection H as <-. destruct (IH _ _ Hr) as (Hp & Hh).
    simpl. split; [now rewrite Hp | now apply Forall_cons].
Qed.

Lemma initGreenfieldClients_from_dials (cfg : Config) (rest : list string) :
  (forall s, grpc_dial cfg s = true) -> (forall s, rpc_dial cfg s = true) ->
  forall i,
    (i + List.length rest <= List.length (GRPCAddrs cfg))%nat ->
    exists cs, initGreenfieldClients_from cfg i rest = Ok cs.
Proof.
  intros Hg Hr. induction rest as [|a rest IH]; intros i Hlen; simpl in *.
  - now exists [].
  - destruct (nth_error (GRPCAddrs cfg) i) as [g|] eqn:Hnth.
    + rewrite Hg, Hr. simpl. destruct (IH (S i)) as [cs Hcs]; [lia|].
      rewrite Hcs. eauto.
    + apply nth_error_None in Hnth. lia.
Qed.

(** X6.  Construction never returns an error: it gives an executor or
    panics.  With fewer gRPC addresses than RPC addresses it panics.
    When the key loads, every channel can be built and there are at
    least as many gRPC addresses as RPC addresses, it gives an executor
    with one handle per RPC address, in order, named by that address,
    all at height 0, with active index 0 and an empty cache; gRPC
    addresses beyond the number of RPC addresses are not used. *)
Theorem NewGreenfieldExecutor_outcome (cfg : Config) :
  (forall err, NewGreenfieldExecutor cfg <> Err err) /\
  ((List.length (GRPCAddrs cfg) < List.length (RPCAddrs cfg))%nat ->
   NewGreenfieldExecutor cfg = Panic) /\
  (forall addr,
      key_address cfg = Some addr ->
      (forall s, grpc_dial cfg s = true) ->
      (forall s, rpc_dial cfg s = true) ->
      (List.length (RPCAddrs cfg) <= List.length (GRPCAddrs cfg))%nat ->
      exists e,
        NewGreenfieldExecutor cfg = Ok e /\
        clientIdx e = 0 /\ address e = addr /\ validators e = [] /\
        map Provider (greenfieldClients e) = RPCAddrs cfg /\
        Forall (fun c => Height c = 0%N) (greenfieldClients e)).
Proof.
  unfold NewGreenfieldExecutor, initGreenfieldClients. split; [|split].
  - intros err. destruct (key_address cfg); [|discriminate].
    destruct (initGreenfieldClients_from cfg 0 (RPCAddrs cfg)) as [cs|e'|] eqn:H;
      try discriminate.
    exfalso. clear -H. revert H. generalize 0%nat.
    induction (RPCAddrs cfg) as [|a rest IH]; intros i H; simpl in H;
      [discriminate|].
    destruct (nth_error (GRPCAddrs cfg) i); [|discriminate].
    destruct (grpc_dial cfg s && rpc_dial cfg a); [|discriminate].
    destruct (initGreenfieldClients_from cfg (S i) rest) eqn:Hr;
      try discriminate.
    injection H as ->. eapply IH; eauto.
  - intros Hlen. destruct (key_address cfg); [|reflexivity].
    rewrite initGreenfieldClients_from_short; [reflexivity | lia | simpl; lia].
  - intros addr -> Hg Hr Hlen.
    destruct (initGreenfieldClients_from_dials cfg (RPCAddrs cfg) Hg Hr 0)
      as [cs Hcs]; [simpl; lia|].
    rewrite Hcs. destruct (initGreenfieldClients_from_Ok _ _ _ _ Hcs)
      as (Hp & Hh).
    eexists. split; [reflexivity|]. simpl. auto.
Qed.

Lemma NewGreenfieldExecutor_outcome_witness :
  NewGreenfieldExecutor (config ["rpc0"; "rpc1"] ["grpc0"]) = Panic /\
  exists e,
    NewGreenfieldExecutor (config ["rpc0"] ["grpc0"; "grpc1"]) = Ok e /\
    map Provider (greenfieldClients e) = ["rpc0"].
Proof.
  split.
  - apply (proj1 (proj2 (NewGreenfieldExecutor_outcome
                           (config ["rpc0"; "rpc1"] ["grpc0"])))).
    simpl. lia.
  - destruct (proj2 (proj2 (NewGreenfieldExecutor_outcome
                              (config ["rpc0"] ["grpc0"; "grpc1"])))
                "0x00" eq_refl (fun _ => eq_refl) (fun _ => eq_refl))
      as (e & He & _ & _ & _ & Hp & _).
    + simpl. lia.
    + exists e. auto.
Defined.

(** ** The handles of a running executor *)

Section HandlesInvariant.

Variable RtyAttNum : nat.
Variable FallBehindThreshold : N.
Variable DataSeedDenyServiceThreshold : Z.

(** What no move changes: the providers, the key's address, and that
    the heights are [uint64] values. *)
Lemma step_handles (e e' : Executor) :
  step RtyAttNum FallBehindThreshold DataSeedDenyServiceThreshold e e' ->
  map Provider (greenfieldClients e') = map Provider (greenfieldClients e) /\
  address e' = address e /\
  (Forall (fun c => (Height c < U64)%N) (greenfieldClients e) ->
   Forall (fun c => (Height c < U64)%N) (greenfieldClients e')).
Proof.
  intros Hs. destruct Hs as [env e e' H | answer e e' H | answer e r e' H].
  - destruct (tick_Ok _ _ _ env e e' H) as (Hcs & Ha & _).
    rewrite Hcs. split; [apply collect_Provider|]. split; [exact Ha|].
    apply collect_Height.
  - unfold UpdateCachedLatestValidatorsLoop_tick, queryLatestValidators in H.
    destruct (getRpcClient e); [|discriminate H].
    destruct answer as [err|rv]; revert H; msimpl; intros H;
      injection H as <-; auto.
  - pose proof (QueryCachedLatestValidators_state answer e) as Hst.
    rewrite H in Hst. simpl in Hst. subst e'. auto.
Qed.

End HandlesInvariant.

(** X7.  In every state reachable from construction, by ticks of either
    loop and on-demand reads, the handles are the ones construction
    made: their providers are the configured RPC addresses, in order,
    the address of the key is the one loaded at construction, and every
    height is below 2^64. *)
Theorem handles_fixed
    (RtyAttNum : nat) (FallBehindThreshold : N)
    (DataSeedDenyServiceThreshold : Z) (cfg : Config) (e : Executor) :
  reachable RtyAttNum FallBehindThreshold DataSeedDenyServiceThreshold cfg e ->
  map Provider (greenfieldClients e) = RPCAddrs cfg /\
  key_address cfg = Some (address e) /\
  Forall (fun c => (Height c < U64)%N) (greenfieldClients e).
Proof.
  intros Hr. induction Hr as [e H | e e' Hr IH Hs].
  - unfold NewGreenfieldExecutor, initGreenfieldClients in H.
    destruct (key_address cfg) as [addr|]; [|discriminate].
    destruct (initGreenfieldClients_from cfg 0 (RPCAddrs cfg)) as [cs| |] eqn:Hcs;
      try discriminate.
    injection H as <-. simpl.
    destruct (initGreenfieldClients_from_Ok _ _ _ _ Hcs) as (Hp & Hh).
    split; [exact Hp|]. split; [reflexivity|].
    eapply Forall_impl; [|exact Hh].
    intros c ->. vm_compute. reflexivity.
  - destruct IH as (Hp & Ha & Hh).
    destruct (step_handles _ _ _ e e' Hs) as (Hp' & Ha' & Hh').
    split; [congruence|]. split; [congruence | auto].
Qed.

Lemma handles_fixed_witness :
  exists e,
    value (UpdateClientLoop_tick 5 5 60 nodes_100_106 (pool 0 two_handles))
    = Ok e /\
    map Provider (greenfieldClients e) = ["rpc0"; "rpc1"].
Proof.
  destruct (tick_valid 5 5 60 nodes_100_106 (pool 0 two_handles))
    as (e & He & _); [unfold valid_index; simpl; lia|].
  exists e. split; [exact He|].
  apply (handles_fixed 5 5 60 (config ["rpc0"; "rpc1"] ["grpc0"; "grpc1"])).
  eapply reach_step; [apply reach_new; reflexivity|].
  eapply step_monitor. exact He.
Defined.

(** ** An executor without an active handle *)

Lemma getRpcClient_invalid (e : Executor) :
  ~ valid_index e -> getRpcClient e = None.
Proof.
  intros Hv. unfold getRpcClient.
  destruct (index (greenfieldClients e) (clientIdx e)) as [c|] eqn:H;
    [|reflexivity].
  apply index_Some in H. unfold valid_index in Hv. tauto.
Qed.

(** X8.  When the active index is not a valid index, as it is for an
    executor built from an empty list of addresses, every operation that
    needs the active handle panics: a tick of the monitor loop (after it
    has polled the handles), a tick of the refresh loop, the height
    query, the validator queries and the light block builder.  Only the
    on-demand read of a cache that is not empty still answers. *)
Theorem no_active_handle_panics
    (RtyAttNum : nat) (FallBehindThreshold : N)
    (DataSeedDenyServiceThreshold : Z)
    (SignedHeader ValidatorSet LightBlockProto : Type)
    (NewValidatorSet : list ValidatorPtr -> option ValidatorSet)
    (ToProto : SignedHeader -> ValidatorSet -> result LightBlockProto)
    (Marshal : LightBlockProto -> result (list byte))
    (e : Executor) :
  ~ valid_index e ->
  (forall env,
      value (UpdateClientLoop_tick RtyAttNum FallBehindThreshold
               DataSeedDenyServiceThreshold env e) = Panic) /\
  (forall answer,
      value (UpdateCachedLatestValidatorsLoop_tick answer e) = Panic) /\
  (forall answers,
      value (GetLatestBlockHeightWithRetry RtyAttNum answers e) = Panic) /\
  (forall answer, value (queryLatestValidators answer e) = Panic) /\
  (forall height answer,
      value (QueryValidatorsAtHeight height answer e) = Panic) /\
  (forall height answerV answerC e',
      value (QueryTendermintLightBlock NewValidatorSet ToProto Marshal
               height answerV answerC e e') = Panic) /\
  (forall answer,
      fst (value (QueryCachedLatestValidators answer e))
      = match validators e with
        | [] => Panic
        | _ => Ok (validators e)
        end).
Proof.
  intros Hv. pose proof (getRpcClient_invalid e Hv) as Hc.
  repeat split.
  - intros env. rewrite tick_value. rewrite decide_invalid; [reflexivity|].
    rewrite collect_length. exact Hv.
  - intros answer.
    unfold UpdateCachedLatestValidatorsLoop_tick, queryLatestValidators.
    now rewrite Hc.
  - intros answers. unfold GetLatestBlockHeightWithRetry.
    fold (getRpcClient e). now rewrite Hc.
  - intros answer. unfold queryLatestValidators. now rewrite Hc.
  - intros height answer. unfold QueryValidatorsAtHeight. now rewrite Hc.
  - intros height answerV answerC e'. unfold QueryTendermintLightBlock.
    now rewrite Hc.
  - intros answer. unfold QueryCachedLatestValidators, queryLatestValidators.
    rewrite Hc. now destruct (validators e).
Qed.

Lemma no_active_handle_panics_witness :
  exists e,
    NewGreenfieldExecutor (config [] []) = Ok e /\
    value (UpdateClientLoop_tick 5 5 60 nodes_100_106 e) = Panic.
Proof.
  eexists. split; [reflexivity|].
  refine (proj1 (no_active_handle_panics 5 5 60 unit unit unit
                   (fun _ => None) (fun _ _ => inl "") (fun _ => inl "")
                   _ _) nodes_100_106).
  unfold valid_index. simpl. lia.
Defined.

(** ** The validator cache after a refresh *)

(** X9.  With an active handle, a refresh tick whose query succeeds
    replaces the cache by the answer, whatever was cached: if the answer
    holds validators, the next on-demand read returns exactly them with
    no remote call; if the answer is empty, the cache is empty again and
    the next on-demand read goes to the node. *)
Theorem refresh_then_read
    (rv : ResultValidators) (answer' : rpc ResultValidators) (e : Executor) :
  valid_index e ->
  exists e',
    value (UpdateCachedLatestValidatorsLoop_tick (inr rv) e) = Ok e' /\
    validators e' = Validators rv /\
    (Validators rv <> [] ->
     QueryCachedLatestValidators answer' e' = (Ok (Validators rv), e', [])) /\
    (Validators rv = [] ->
     fst (value (QueryCachedLatestValidators answer' e'))
     = match answer' with
       | inl err => Err err
       | inr rv' => Ok (Validators rv')
       end /\
     count is_validators (trace (QueryCachedLatestValidators answer' e'))
     = 1%nat).
Proof.
  intros Hv.
  destruct (UpdateCachedLatestValidatorsLoop_tick_runs (inr rv) e Hv)
    as (e' & He' & Hv' & _).
  destruct (UpdateCachedLatestValidatorsLoop_tick_state _ _ _ He')
    as (_ & _ & Hval).
  exists e'. split; [exact He'|]. split; [exact Hval|]. split.
  - intros Hne. rewrite <- Hval.
    apply QueryCachedLatestValidators_hit. now rewrite Hval.
  - intros Hnil. destruct (getRpcClient_valid e' Hv') as [client Hc].
    rewrite (QueryCachedLatestValidators_miss answer' e' client);
      [auto | congruence | exact Hc].
Qed.

Lemma refresh_then_read_witness :
  exists e',
    value (UpdateCachedLatestValidatorsLoop_tick
             (inr {| BlockHeight := 9; Validators := [] |})
             (cached two_validators)) = Ok e' /\
    validators e' = [].
Proof.
  destruct (refresh_then_read {| BlockHeight := 9; Validators := [] |}
              (inl "x") (cached two_validators))
    as (e' & He' & Hval & _).
  - unfold valid_index. simpl. lia.
  - exists e'. auto.
Defined.

(** X10.  A refresh tick that follows a tick of the monitor loop asks
    the node the monitor loop has just made active, a node that trails no
    handle by more than the threshold; the refresh tick touches neither
    the active index nor the handles, and the monitor tick did not touch
    the cache. *)
Theorem refresh_after_tick
    (RtyAttNum : nat) (FallBehindThreshold : N)
    (DataSeedDenyServiceThreshold : Z)
    (env : nat -> Probe) (answer : rpc ResultValidators) (e : Executor) :
  valid_index e ->
  exists e1 act e2,
    value (UpdateClientLoop_tick RtyAttNum FallBehindThreshold
             DataSeedDenyServiceThreshold env e) = Ok e1 /\
    validators e1 = validators e /\
    index (greenfieldClients e1) (clientIdx e1) = Some act /\
    (forall c, In c (greenfieldClients e1) ->
               (Height c <= Height act + FallBehindThreshold)%N) /\
    value (UpdateCachedLatestValidatorsLoop_tick answer e1) = Ok e2 /\
    In (RpcValidators (Provider act) None)
       (trace (UpdateCachedLatestValidatorsLoop_tick answer e1)) /\
    count is_validators
      (trace (UpdateCachedLatestValidatorsLoop_tick answer e1)) = 1%nat /\
    clientIdx e2 = clientIdx e1 /\
    greenfieldClients e2 = greenfieldClients e1.
Proof.
  intros Hv.
  destruct (tick_valid RtyAttNum FallBehindThreshold
              DataSeedDenyServiceThreshold env e Hv)
    as (e1 & He1 & _ & Hval & Hv1).
  destruct (tick_Ok _ _ _ env e e1 He1) as (_ & _ & _ & Hd).
  destruct (decide_result _ _ _ _ Hd) as (act & Hact & Hmax).
  destruct (UpdateCachedLatestValidatorsLoop_tick_runs answer e1 Hv1)
    as (e2 & He2 & _ & _).
  destruct (UpdateCachedLatestValidatorsLoop_tick_state _ _ _ He2)
    as (Hi & Hc & _).
  exists e1, act, e2.
  split; [exact He1|]. split; [exact Hval|]. split; [exact Hact|].
  split; [exact Hmax|]. split; [exact He2|].
  assert (getRpcClient e1 = Some (Provider act)) as Hg
    by (unfold getRpcClient; now rewrite Hact).
  unfold UpdateCachedLatestValidatorsLoop_tick, queryLatestValidators.
  rewrite Hg. destruct answer as [err|rv]; msimpl; cbn; auto.
Qed.

Lemma refresh_after_tick_witness :
  exists e1,
    value (UpdateClientLoop_tick 5 5 60 nodes_100_106 (pool 0 two_handles))
    = Ok e1 /\
    In (RpcValidators "rpc1" None)
       (trace (UpdateCachedLatestValidatorsLoop_tick (inl "down") e1)).
Proof.
  destruct (refresh_after_tick 5 5 60 nodes_100_106 (inl "down")
              (pool 0 two_handles))
    as (e1 & act & e2 & He1 & _ & Hact & _ & _ & Hin & _).
  - unfold valid_index. simpl. lia.
  - exists e1. split; [exact He1|].
    assert (value (UpdateClientLoop_tick 5 5 60 nodes_100_106
                     (pool 0 two_handles))
            = Ok {| clientIdx := 1;
                    greenfieldClients :=
                      [handle "rpc0" 100 (11 * Second);
                       handle "rpc1" 106 (11 * Second)];
                    address := "0x00"; validators := [] |}) as Hrun
      by (vm_compute; reflexivity).
    rewrite Hrun in He1. injection He1 as <-.
    assert (Some (handle "rpc1" 106 (11 * Second)) = Some act) as Heq
      by exact Hact.
    injection Heq as <-. exact Hin.
Defined.

(** ** The light block builder's calls *)

(** X11.  The builder makes its two calls one after the other, the
    [Validators] call to the node that is active when it is made and the
    [Commit] call to the node that is active then, both for the height it
    was given: when the monitor loop has switched in between, the two
    calls go to two different nodes.  The second call is made even when
    the first has failed.  Bytes come back exactly when both calls
    succeeded, the validator set could be built and both encoding steps
    succeeded, and the bytes are that encoding. *)
Theorem QueryTendermintLightBlock_calls
    (SignedHeader ValidatorSet LightBlockProto : Type)
    (NewValidatorSet : list ValidatorPtr -> option ValidatorSet)
    (ToProto : SignedHeader -> ValidatorSet -> result LightBlockProto)
    (Marshal : LightBlockProto -> result (list byte))
    (height : Z) (answerV : rpc ResultValidators)
    (answerC : rpc SignedHeader) (e e' : Executor) :
  valid_index e -> valid_index e' ->
  exists client client',
    getRpcClient e = Some client /\
    getRpcClient e' = Some client' /\
    trace (QueryTendermintLightBlock NewValidatorSet ToProto Marshal height
             answerV answerC e e')
    = [RpcValidators client (Some height); RpcCommit client' height] /\
    forall bz,
      value (QueryTendermintLightBlock NewValidatorSet ToProto Marshal height
               answerV answerC e e') = Ok bz <->
      exists rv sh vs pb,
        answerV = inr rv /\ answerC = inr sh /\
        NewValidatorSet (Validators rv) = Some vs /\
        ToProto sh vs = inr pb /\ Marshal pb = inr bz.
Proof.
  intros Hv Hv'. destruct (getRpcClient_valid e Hv) as [client Hc].
  destruct (getRpcClient_valid e' Hv') as [client' Hc'].
  exists client, client'. split; [exact Hc|]. split; [exact Hc'|].
  unfold QueryTendermintLightBlock. rewrite Hc, Hc'.
  destruct answerC as [errC|sh]; destruct answerV as [errV|rv]; simpl.
  1-3: split; [reflexivity|]; intros bz; split;
    [discriminate | intros (rv' & sh' & vs & pb & H1 & H2 & _); discriminate].
  destruct (NewValidatorSet (Validators rv)) as [vs|] eqn:Hvs; simpl.
  2:{ split; [reflexivity|]. intros bz. split; [discriminate|].
      intros (rv' & sh' & vs & pb & [= <-] & _ & H3 & _). congruence. }
  destruct (ToProto sh vs) as [err|pb] eqn:Hpb; simpl.
  { split; [reflexivity|]. intros bz. split; [discriminate|].
    intros (rv' & sh' & vs' & pb & [= <-] & [= <-] & H3 & H4 & _).
    congruence. }
  destruct (Marshal pb) as [err|bz'] eqn:Hbz; simpl.
  { split; [reflexivity|]. intros bz. split; [discriminate|].
    intros (rv' & sh' & vs' & pb' & [= <-] & [= <-] & H3 & H4 & H5).
    congruence. }
  split; [reflexivity|]. intros bz. split.
  - intros [= <-]. exists rv, sh, vs, pb. auto.
  - intros (rv' & sh' & vs' & pb' & [= <-] & [= <-] & H3 & H4 & H5).
    congruence.
Qed.

(** The monitor loop switches from rpc0 to rpc1 between the two calls:
    the validators are asked of rpc0 and the commit of rpc1. *)
Lemma QueryTendermintLightBlock_calls_witness :
  trace (QueryTendermintLightBlock
           (fun _ : list ValidatorPtr => Some tt)
           (fun (_ : string) (_ : unit) => inr tt)
           (fun _ : unit => inr [x0a]) 7 (inl "no validators")
           (inl "no commit") (pool 0 two_handles) (pool 1 two_handles))
  = [RpcValidators "rpc0" (Some 7); RpcCommit "rpc1" 7].
Proof.
  destruct (QueryTendermintLightBlock_calls string unit unit
              (fun _ => Some tt) (fun _ _ => inr tt) (fun _ => inr [x0a])
              7 (inl "no validators") (inl "no commit")
              (pool 0 two_handles) (pool 1 two_handles))
    as (client & client' & Hc & Hc' & Ht & _).
  - unfold valid_index. simpl. lia.
  - unfold valid_index. simpl. lia.
  - rewrite Ht. injection Hc as <-. injection Hc' as <-. reflexivity.
Defined.

(** ** Keys as text *)

Lemma byte_of_digits_encode (b : byte) :
  byte_of_digits (hex_digit (N.shiftr (Byte.to_N b) 4))
                 (hex_digit (N.land (Byte.to_N b) 15)) = Some b.
Proof. destruct b; vm_compute; reflexivity. Qed.

Lemma EncodeToString_inj (a : list byte) :
  forall b, EncodeToString a = EncodeToString b -> a = b.
Proof.
  induction a as [|x a IH]; intros [|y b] H; cbn [EncodeToString] in H;
    try discriminate; [reflexivity|].
  injection H as H1 H2 H3.
  assert (Some x = Some y) as Hxy.
  { rewrite <- (byte_of_digits_encode x), <- (byte_of_digits_encode y).
    apply f_equal2; [exact H1 | exact H2]. }
  injection Hxy as ->. f_equal. now apply IH.
Qed.

Lemma EncodeToString_length (src : list byte) :
  String.length (EncodeToString src) = (2 * List.length src)%nat.
Proof.
  induction src as [|v src IH]; [reflexivity|].
  cbn [EncodeToString String.length List.length]. rewrite IH. lia.
Qed.

(** X12.  The keys [GetValidatorsBlsPublicKey] builds identify the BLS
    keys: when the loop has built the keys of a sequence of validators,
    the text of a key has two characters per byte, and two positions of
    the result hold the same text only if the two validators have the
    same [RelayerBlsKey]. *)
Theorem bls_key_text_faithful (vs : list ValidatorPtr) (keys : list string)
    (i j : nat) (vi vj : Validator) :
  append_keys vs = Ok keys ->
  nth_error vs i = Some (Some vi) ->
  nth_error vs j = Some (Some vj) ->
  (exists k, nth_error keys i = Some k /\
             String.length k = (2 * List.length (RelayerBlsKey vi))%nat) /\
  (nth_error keys i = nth_error keys j ->
   RelayerBlsKey vi = RelayerBlsKey vj).
Proof.
  intros Hk Hi Hj. destruct (append_keys_Ok _ _ _ Hk) as [vals ->].
  rewrite append_keys_map in Hk. injection Hk as <-.
  rewrite nth_error_map in Hi, Hj.
  destruct (nth_error vals i) as [a|] eqn:Ha; [|discriminate].
  destruct (nth_error vals j) as [b|] eqn:Hb; [|discriminate].
  simpl in Hi, Hj. injection Hi as ->. injection Hj as ->.
  rewrite !nth_error_map, Ha, Hb. simpl. split.
  - eexists. split; [reflexivity|]. apply EncodeToString_length.
  - intros [= H]. now apply EncodeToString_inj.
Qed.

Lemma bls_key_text_faithful_witness :
  exists keys k,
    append_keys two_validators = Ok keys /\
    nth_error keys 0 = Some k /\ String.length k = 4%nat.
Proof.
  destruct (bls_key_text_faithful two_validators ["dead"; "beef"] 0 1
              (validator [x01] [xde; xad]) (validator [x02] [xbe; xef])
              eq_refl eq_refl eq_refl) as [(k & Hk & Hlen) _].
  exists ["dead"; "beef"], k.
  split; [reflexivity|]. split; [exact Hk | exact Hlen].
Defined.

(** ** Heights across the two conversions *)



